(** * RateLimiter: dual sliding-window admission gate (rate_limiter.py)

    A shallow embedding of [RateLimiter] and the proofs of its
    specification.

    Modelling choices.
    - A timestamp ([time.monotonic()], a Python float) is the rational [Q]
      that the double denotes.  The arithmetic of the wait computation rounds
      as doubles do ([Binary64.round], to nearest, ties to even).  The
      horizons [now - 1] and [now - 60] are taken as they are: for a clock
      reading (not negative, below 2^53) the subtraction is exact, or its
      result is negative and below every stamp.
    - A [deque] is a [list]: [popleft] drops the head, [append] adds at the
      tail, [w[0]] reads the head and raises [IndexError] on an empty deque.
    - The clock is an input: every operation takes the value that its call of
      [time.monotonic()] returns.
    - asyncio schedules coroutines cooperatively, so the code between two
      suspension points runs atomically.  One iteration of the loop of
      [acquire] (from taking the lock to the [return] or to the release
      before [asyncio.sleep]) is one atomic step; so is a count property.
    - [asyncio.Lock] is a boolean: held or free.

    After the limiter come its use by the bot (bot.py: the limiter of the
    process and the numbers of [/status]) and the contact file parsers
    (contact_parser.py). *)

From Stdlib Require Import ZArith QArith Qround Qpower Qreduction Qabs.
From Stdlib Require Import Lqa Lia List Bool Ascii String.
Import ListNotations.

Local Open Scope Z_scope.

(** ** Python values used by the limiter *)

Inductive exn : Type :=
| ValueError
| IndexError.

(** The outcome of an expression that may raise. *)
Inductive result (A : Type) : Type :=
| Ok (a : A)
| Raise (e : exn).
Arguments Ok {A} a.
Arguments Raise {A} e.

Definition bind {A B : Type} (r : result A) (k : A -> result B) : result B :=
  match r with
  | Ok a => k a
  | Raise e => Raise e
  end.

Notation "x <- r ;; k" := (bind r (fun x => k))
  (at level 61, r at next level, right associativity).

(** *** [int(str)]

    The builtin is a parameter of the constructor: a function from a text to
    the integer it denotes, or to nothing where [int] raises [ValueError].
    The theorems about the constructor hold for every such function.

    [PyInt.int] is the builtin on ASCII text under the interpreter's default
    settings, for the examples: whitespace (bytes 9 to 13 and 32, no other) is
    stripped at both ends, one sign is allowed, then come decimal digits,
    where single underscores may separate digits; more than 4300 digits are
    refused.  On text with other characters it is not the builtin, which
    reads the digits and the whitespace of every script. *)
Module PyInt.

Definition is_space (c : ascii) : bool :=
  let n := nat_of_ascii c in
  ((9 <=? n) && (n <=? 13) || (n =? 32))%nat.

Definition digit_of (c : ascii) : option Z :=
  let n := Z.of_nat (nat_of_ascii c) in
  if (48 <=? n) && (n <=? 57) then Some (n - 48) else None.

Fixpoint lstrip (cs : list ascii) : list ascii :=
  match cs with
  | c :: cs' => if is_space c then lstrip cs' else cs
  | [] => []
  end.

Definition strip (cs : list ascii) : list ascii :=
  rev (lstrip (rev (lstrip cs))).

(** [sys.get_int_max_str_digits()]. *)
Definition max_str_digits : Z := 4300.

(** The value of the digits read so far and how many they are. *)
Fixpoint digits (acc count : Z) (after_digit : bool) (cs : list ascii)
    : option Z :=
  match cs with
  | [] =>
      if after_digit && (count <=? max_str_digits) then Some acc else None
  | c :: cs' =>
      if Ascii.eqb c "_"
      then if after_digit then digits acc count false cs' else None
      else match digit_of c with
           | Some d => digits (10 * acc + d) (count + 1) true cs'
           | None => None
           end
  end.

Definition signed (cs : list ascii) : option Z :=
  match cs with
  | c :: cs' =>
      if Ascii.eqb c "-" then option_map Z.opp (digits 0 0 false cs')
      else if Ascii.eqb c "+" then digits 0 0 false cs'
      else digits 0 0 false cs
  | [] => None
  end.

Definition int (s : string) : option Z :=
  signed (strip (list_ascii_of_string s)).

End PyInt.

(** [os.getenv(key, default)]: the process environment maps a name to its
    value when the variable is set. *)
Definition environ : Type := string -> option string.

Definition getenv (env : environ) (key default : string) : string :=
  match env key with
  | Some v => v
  | None => default
  end.

(** [arg or fallback] for an [int | None] argument: [None] and [0] are falsy,
    and the fallback is evaluated only for a falsy [arg]. *)
Definition py_or (arg : option Z) (fallback : result Z) : result Z :=
  match arg with
  | Some n => if n =? 0 then fallback else Ok n
  | None => fallback
  end.

(** [max(a, b)] of the builtin: [b] only when it is strictly greater. *)
Definition py_max (a b : Q) : Q :=
  if Qle_bool b a then a else b.

(** ** The limiter *)

Record RateLimiter : Type := mkRateLimiter {
  messages_per_second : Z;
  messages_per_minute : Z;
  _second_window : list Q;
  _minute_window : list Q;
  _lock : bool                 (* [true]: the asyncio.Lock is held *)
}.

(** The instance the constructor builds once both limits are known. *)
Definition new (per_second per_minute : Z) : RateLimiter :=
  mkRateLimiter per_second per_minute [] [] false.

(** [int(text)], for the builtin [int]. *)
Definition call_int (int : string -> option Z) (text : string) : result Z :=
  match int text with
  | Some z => Ok z
  | None => Raise ValueError
  end.

(** [RateLimiter.__init__]. *)
Definition init (int : string -> option Z)
    (messages_per_second messages_per_minute : option Z)
    (env : environ) : result RateLimiter :=
  s <- py_or messages_per_second
         (call_int int (getenv env "RATE_LIMIT_MESSAGES_PER_SECOND" "10")) ;;
  m <- py_or messages_per_minute
         (call_int int (getenv env "RATE_LIMIT_MESSAGES_PER_MINUTE" "100")) ;;
  Ok (new s m).

(** No variable is set. *)
Definition empty_environ : environ := fun _ => None.

(** *** Double arithmetic

    The value of a float operation is the exact result rounded to the nearest
    double, ties to the even significand (53 bits, least exponent -1022).
    The results here stay far below the largest double, so overflow is left
    out. *)
Module Binary64.

Definition pow2 (e : Z) : Q := (2 ^ e)%Q.

(** The nearest integer, the even one of two equally near. *)
Definition nearest_even (q : Q) : Z :=
  let f := Qfloor q in
  match (q - inject_Z f ?= 1 # 2)%Q with
  | Lt => f
  | Gt => f + 1
  | Eq => if Z.even f then f else f + 1
  end.

(** For [0 < q], the [e] with [2 ^ e <= q < 2 ^ (e + 1)]. *)
Definition ilog2 (q : Q) : Z :=
  let e := Z.log2 (Qnum q) - Z.log2 (Zpos (Qden q)) in
  if Qle_bool (pow2 e) q then e else e - 1.

Definition round_positive (q : Q) : Q :=
  let e := Z.max (ilog2 q) (-1022) in
  let ulp := pow2 (e - 52) in
  (inject_Z (nearest_even (q / ulp)) * ulp)%Q.

Definition round (q : Q) : Q :=
  Qred match (q ?= 0)%Q with
       | Eq => 0%Q
       | Gt => round_positive q
       | Lt => (- round_positive (- q))%Q
       end.

(** [q] is the value of a double. *)
Definition is_double (q : Q) : bool :=
  Qeq_bool (round q) q && negb (Qle_bool (pow2 1024) (Qabs q)).

End Binary64.

(** *** Sliding windows *)

Definition len (w : list Q) : Z := Z.of_nat (List.length w).

(** [w[0]] on a deque. *)
Definition head (w : list Q) : result Q :=
  match w with
  | t :: _ => Ok t
  | [] => Raise IndexError
  end.

(** [while w and w[0] <= horizon: w.popleft()]. *)
Fixpoint popleft_while (horizon : Q) (w : list Q) : list Q :=
  match w with
  | t :: w' => if Qle_bool t horizon then popleft_while horizon w' else w
  | [] => []
  end.

Definition set_windows (second minute : list Q) (self : RateLimiter)
    : RateLimiter :=
  mkRateLimiter (messages_per_second self) (messages_per_minute self)
    second minute (_lock self).

Definition set_lock (held : bool) (self : RateLimiter) : RateLimiter :=
  mkRateLimiter (messages_per_second self) (messages_per_minute self)
    (_second_window self) (_minute_window self) held.

(** [RateLimiter._clean_windows]. *)
Definition _clean_windows (now : Q) (self : RateLimiter) : RateLimiter :=
  set_windows (popleft_while (now - 1) (_second_window self))
              (popleft_while (now - 60) (_minute_window self)) self.

(** *** [acquire] *)

(** How one pass through the body of [while True] ends. *)
Inductive attempt : Type :=
| Granted (self : RateLimiter)
    (* both appends done, [return], the lock released by [async with] *)
| Sleeping (wait : Q) (self : RateLimiter)
    (* the lock released, suspended in [asyncio.sleep(wait)] *)
| Raised (e : exn) (self : RateLimiter)
    (* an exception left the [async with] block, which released the lock *)
| Blocked (self : RateLimiter).
    (* the lock is held: suspended in [Lock.acquire] *)

(** The lines under [# Calculate wait time]: [w[0] + span - now] is two
    float operations, each rounded. *)
Definition calculate_wait (now : Q) (per_second_ok per_minute_ok : bool)
    (self : RateLimiter) : result Q :=
  let wait := 0%Q in
  wait <- (if negb per_second_ok
           then h <- head (_second_window self) ;;
                Ok (py_max wait
                      (Binary64.round (Binary64.round (h + 1) - now))%Q)
           else Ok wait) ;;
  wait <- (if negb per_minute_ok
           then h <- head (_minute_window self) ;;
                Ok (py_max wait
                      (Binary64.round (Binary64.round (h + 60) - now))%Q)
           else Ok wait) ;;
  Ok wait.

(** One atomic step of [acquire]: take the lock (on entry, or again after a
    sleep), read the clock as [now], trim, then grant or compute the wait and
    release the lock. *)
Definition acquire_attempt (now : Q) (self : RateLimiter) : attempt :=
  if _lock self then Blocked self
  else
    let self := set_lock true self in
    let self := _clean_windows now self in
    let per_second_ok := len (_second_window self) <? messages_per_second self in
    let per_minute_ok := len (_minute_window self) <? messages_per_minute self in
    if per_second_ok && per_minute_ok
    then Granted (set_lock false
                     (set_windows (_second_window self ++ [now])
                                  (_minute_window self ++ [now]) self))
    else match calculate_wait now per_second_ok per_minute_ok self with
         | Ok wait => Sleeping wait (set_lock false self)
         | Raise e => Raised e (set_lock false self)
         end.

(** The two flags of a pass at [now], as functions of the limiter the pass
    starts from. *)
Definition per_second_ok (now : Q) (self : RateLimiter) : bool :=
  len (_second_window (_clean_windows now self)) <? messages_per_second self.

Definition per_minute_ok (now : Q) (self : RateLimiter) : bool :=
  len (_minute_window (_clean_windows now self)) <? messages_per_minute self.

(** How a whole call of [acquire] ends when no other coroutine runs in
    between. *)
Inductive completion : Type :=
| Returned (slept : list Q) (self : RateLimiter)
| Failed (e : exn) (self : RateLimiter)
| Pending (self : RateLimiter).

(** [RateLimiter.acquire] run alone.  [clock] lists the successive values of
    [time.monotonic()], one for each pass of the loop; [slept] collects the
    arguments of [asyncio.sleep].  [Pending]: still in the loop when the
    listed readings are used up, or waiting for a lock nobody releases. *)
Fixpoint acquire_from (slept : list Q) (clock : list Q) (self : RateLimiter)
    : completion :=
  match clock with
  | [] => Pending self
  | now :: later =>
      match acquire_attempt now self with
      | Granted self' => Returned slept self'
      | Sleeping wait self' => acquire_from (slept ++ [wait]) later self'
      | Raised e self' => Failed e self'
      | Blocked self' => Pending self'
      end
  end.

Definition acquire (clock : list Q) (self : RateLimiter) : completion :=
  acquire_from [] clock self.

(** *** Count properties *)

(** [RateLimiter.current_second_count]: the value and the limiter after. *)
Definition current_second_count (now : Q) (self : RateLimiter)
    : Z * RateLimiter :=
  let self := _clean_windows now self in
  (len (_second_window self), self).

(** [RateLimiter.current_minute_count]. *)
Definition current_minute_count (now : Q) (self : RateLimiter)
    : Z * RateLimiter :=
  let self := _clean_windows now self in
  (len (_minute_window self), self).

(** ** Executions

    An execution of the program is a sequence of atomic steps, each with the
    clock value it reads: a pass of some caller's [acquire] loop, or a count
    property.  Which caller takes a step does not matter to the limiter. *)

Inductive query : Type :=
| SecondCount
| MinuteCount.

Inductive op : Type :=
| Acquire
| Count (q : query).

Definition count (q : query) (now : Q) (self : RateLimiter)
    : Z * RateLimiter :=
  match q with
  | SecondCount => current_second_count now self
  | MinuteCount => current_minute_count now self
  end.

(** The limiter an attempt leaves behind. *)
Definition after (a : attempt) : RateLimiter :=
  match a with
  | Granted self | Sleeping _ self | Raised _ self | Blocked self => self
  end.

Definition step (o : op) (now : Q) (self : RateLimiter) : RateLimiter :=
  match o with
  | Acquire => after (acquire_attempt now self)
  | Count q => snd (count q now self)
  end.

(** Does the step grant a send to its caller? *)
Definition granting (o : op) (now : Q) (self : RateLimiter) : bool :=
  match o with
  | Acquire =>
      match acquire_attempt now self with
      | Granted _ => true
      | _ => false
      end
  | Count _ => false
  end.

Fixpoint run (tr : list (op * Q)) (self : RateLimiter) : RateLimiter :=
  match tr with
  | [] => self
  | (o, now) :: tr' => run tr' (step o now self)
  end.

(** The timestamps of all grants of an execution, oldest first. *)
Fixpoint grants (tr : list (op * Q)) (self : RateLimiter) : list Q :=
  match tr with
  | [] => []
  | (o, now) :: tr' =>
      (if granting o now self then [now] else []) ++ grants tr' (step o now self)
  end.

(** Several count properties read at one instant: the values and the limiter
    after the last one. *)
Fixpoint counts (qs : list query) (now : Q) (self : RateLimiter)
    : list Z * RateLimiter :=
  match qs with
  | [] => ([], self)
  | q :: qs' =>
      let (n, self') := count q now self in
      let (ns, self'') := counts qs' now self' in
      (n :: ns, self'')
  end.

(** Successive readings of a monotonic clock never decrease. *)
Fixpoint ascending (ts : list Q) : bool :=
  match ts with
  | t :: ((t' :: _) as later) => Qle_bool t t' && ascending later
  | _ => true
  end.

(** [t] is newer than the horizon. *)
Definition newer (horizon t : Q) : bool := negb (Qle_bool t horizon).

(** Every entry of the second window sits in the minute window, at the same
    place from the tail: the second window is the newest part of the minute
    window. *)
Definition nested (self : RateLimiter) : Prop :=
  exists older, _minute_window self = older ++ _second_window self.

(** The windows record the grants [g] as of the clock value [t]: they hold,
    in order, the grants newer than their horizons, within the limits, and no
    pass of [acquire] is under way. *)
Definition tracks (t : Q) (g : list Q) (self : RateLimiter) : Prop :=
  ascending g = true /\
  Forall (fun u => (u <= t)%Q) g /\
  _second_window self = filter (newer (t - 1)) g /\
  _minute_window self = filter (newer (t - 60)) g /\
  len (_second_window self) <= messages_per_second self /\
  len (_minute_window self) <= messages_per_minute self /\
  _lock self = false.

(** The execution without its count properties. *)
Definition acquires_only (tr : list (op * Q)) : list (op * Q) :=
  filter (fun step_taken => match fst step_taken with
                            | Acquire => true
                            | Count _ => false
                            end) tr.

(** Any [n + 1] consecutive entries of [g] span at least [span]: the entry
    [n] places after an entry is at least [span] later. *)
Definition spaced (span : Q) (n : nat) (g : list Q) : Prop :=
  forall (i : nat) (a b : Q),
    nth_error g i = Some a -> nth_error g (i + n) = Some b ->
    (a + span <= b)%Q.

(** ** Definitions that follow the specification's wording *)



(** A count property that reads and trims under the limiter's lock, the way
    [acquire] holds it: it waits while the lock is held. *)
Inductive guarded (A : Type) : Type :=
| Waits
| Done (a : A).
Arguments Waits {A}.
Arguments Done {A} a.

Definition guarded_count (q : query) (now : Q) (self : RateLimiter)
    : guarded (Z * RateLimiter) :=
  if _lock self then Waits
  else
    let (n, self') := count q now (set_lock true self) in
    Done (n, set_lock false self').

(** * The bot's use of the limiter (bot.py) *)

(** [rate_limiter = RateLimiter()], the limiter of the process: both limits
    come from the environment. *)
Definition rate_limiter (int : string -> option Z) (env : environ)
    : result RateLimiter :=
  init int None None env.

(** The numbers [status_handler] puts in its reply, in the order the
    f-string evaluates them: the second count, the per-second limit, the
    minute count, the per-minute limit.  Each count property reads the clock
    itself, [now1] then [now2].  The text around the numbers is left out. *)
Definition status_handler (now1 now2 : Q) (self : RateLimiter)
    : (Z * Z * Z * Z) * RateLimiter :=
  let (second_count, self) := current_second_count now1 self in
  let second_limit := messages_per_second self in
  let (minute_count, self) := current_minute_count now2 self in
  let minute_limit := messages_per_minute self in
  ((second_count, second_limit, minute_count, minute_limit), self).

(** * Contact files (contact_parser.py)

    A Python [str] is a list of code points.  What Python reads off the
    Unicode tables is a parameter: whether a character is whitespace
    ([str.isspace]) or a digit ([str.isdigit]), and [str.lower].  Logging is
    left out.  The rows that [csv.reader] yields for the file are the input of
    the CSV parser; [csv.DictReader] is modelled on top of them. *)
Module ContactParser.

Definition char : Type := N.
Definition str : Type := list char.

Definition chr (c : ascii) : char := N_of_ascii c.

(** An ASCII literal. *)
Definition lit (s : string) : str := map chr (list_ascii_of_string s).

Definition str_eqb (a b : str) : bool :=
  if list_eq_dec N.eq_dec a b then true else false.

Class Unicode : Type := {
  isspace : char -> bool;   (* [c.isspace()] for one character *)
  isdigit : char -> bool;   (* [c.isdigit()] for one character *)
  lower : str -> str        (* [s.lower()] *)
}.

(** The tables on ASCII text. *)
Definition ascii_isspace (c : char) : bool :=
  ((9 <=? c) && (c <=? 13) || (28 <=? c) && (c <=? 32))%N.

Definition ascii_isdigit (c : char) : bool :=
  ((48 <=? c) && (c <=? 57))%N.

Definition ascii_lower (c : char) : char :=
  (if (65 <=? c) && (c <=? 90) then c + 32 else c)%N.

(** What the proofs use of the tables: their values on ASCII, and that no
    digit is whitespace. *)
Class UnicodeFacts (U : Unicode) : Prop := {
  isspace_ascii : forall c, (c < 128)%N -> isspace c = ascii_isspace c;
  isdigit_ascii : forall c, (c < 128)%N -> isdigit c = ascii_isdigit c;
  digit_not_space : forall c, isdigit c = true -> isspace c = false;
  lower_ascii : forall s,
    Forall (fun c => (c < 128)%N) s -> lower s = map ascii_lower s
}.

(** Python on text that is ASCII throughout. *)
Definition ascii_text : Unicode := {|
  isspace := ascii_isspace;
  isdigit := ascii_isdigit;
  lower := map ascii_lower
|}.

Inductive value_error : Type :=
| EmptyPhoneNumber                (* "Empty phone number" *)
| InvalidPhoneNumber (raw : str)  (* f"Invalid phone number: {raw!r}" *)
| NotInList.                      (* [list.index]: the value is not there *)

Inductive error : Type :=
| ValueError (message : value_error)
| ContactParseError (message : string)
| AttributeError    (* 'NoneType' object has no attribute 'strip' *)
| IndexError.       (* tuple index out of range *)

Inductive outcome (A : Type) : Type :=
| Return (a : A)
| Throw (e : error).
Arguments Return {A} a.
Arguments Throw {A} e.

Section WithUnicode.

Context {U : Unicode}.

Fixpoint lstrip (s : str) : str :=
  match s with
  | c :: s' => if isspace c then lstrip s' else s
  | [] => []
  end.

(** [s.strip()]. *)
Definition strip (s : str) : str := rev (lstrip (rev (lstrip s))).

(** [s.replace(c, "")] for a one-character [c]. *)
Definition remove_char (c : char) (s : str) : str :=
  filter (fun x => negb (N.eqb x c)) s.

(** [s.startswith(c)] for a one-character [c]. *)
Definition startswith (c : char) (s : str) : bool :=
  match s with
  | x :: _ => N.eqb x c
  | [] => false
  end.

(** [s.isdigit()]: at least one character, and all of them digits. *)
Definition str_isdigit (s : str) : bool :=
  match s with
  | [] => false
  | _ => forallb isdigit s
  end.

(** [raw.strip().replace(" ", "").replace("-", "").replace("(", "")
    .replace(")", "")]. *)
Definition cleaned (raw : str) : str :=
  remove_char (chr ")")
    (remove_char (chr "(")
       (remove_char (chr "-") (remove_char (chr " ") (strip raw)))).

(** [_normalise_phone]. *)
Definition _normalise_phone (raw : str) : outcome str :=
  let number := cleaned raw in
  match number with
  | [] => Throw (ValueError EmptyPhoneNumber)
  | _ =>
      let number :=
        if startswith (chr "+") number then number else chr "+" :: number in
      if str_isdigit (tl number) then Return number
      else Throw (ValueError (InvalidPhoneNumber raw))
  end.

(** The dataclass [Contact]; [Contact(phone=..., name=...)] runs
    [__post_init__], which strips both fields. *)
Record Contact : Type := mkContact {
  phone : str;
  name : str
}.

Definition new_contact (phone name : str) : Contact :=
  mkContact (strip phone) (strip name).

(** *** [csv.DictReader] *)

(** A value of a row dictionary: a cell, [None] for a missing cell, or the
    list of surplus cells. *)
Inductive value : Type :=
| VStr (s : str)
| VNone
| VList (cells : list str).

(** A key: a field name, or [None] for the surplus cells. *)
Definition key : Type := option str.

Definition key_eqb (a b : key) : bool :=
  match a, b with
  | Some x, Some y => str_eqb x y
  | None, None => true
  | _, _ => false
  end.

Definition dict : Type := list (key * value).

(** [d[k] = v]. *)
Fixpoint dict_set (k : key) (v : value) (d : dict) : dict :=
  match d with
  | [] => [(k, v)]
  | (k', v') :: d' =>
      if key_eqb k' k then (k', v) :: d' else (k', v') :: dict_set k v d'
  end.

Fixpoint dict_get (k : key) (d : dict) : option value :=
  match d with
  | [] => None
  | (k', v') :: d' => if key_eqb k' k then Some v' else dict_get k d'
  end.

(** The dictionary [DictReader.__next__] builds from a non-blank row:
    [dict(zip(fieldnames, row))], then the surplus cells under [None] or
    [None] under every field name the row is too short for. *)
Definition row_dict (fieldnames row : list str) : dict :=
  let d := fold_left (fun d kv => dict_set (Some (fst kv)) (VStr (snd kv)) d)
             (combine fieldnames row) [] in
  let lf := List.length fieldnames in
  let lr := List.length row in
  if (lf <? lr)%nat then dict_set None (VList (skipn lf row)) d
  else if (lr <? lf)%nat
       then fold_left (fun d k => dict_set (Some k) VNone d)
              (skipn lr fieldnames) d
       else d.

(** [row.get(col, "").strip()]. *)
Definition get_strip (d : dict) (col : str) : outcome str :=
  match dict_get (Some col) d with
  | None => Return (strip [])
  | Some (VStr s) => Return (strip s)
  | Some VNone | Some (VList _) => Throw AttributeError
  end.

(** [l.index(x)]. *)
Fixpoint index (x : str) (l : list str) : option nat :=
  match l with
  | [] => None
  | y :: l' => if str_eqb y x then Some 0%nat else option_map S (index x l')
  end.

(** *** [parse_contacts_csv] *)

(** [for row in reader], [reader] a [DictReader]: blank rows are passed
    over; an invalid phone number skips the row. *)
Fixpoint header_rows (fieldnames : list str) (phone_col : str)
    (name_col : option str) (rows : list (list str))
    (contacts : list Contact) : outcome (list Contact) :=
  match rows with
  | [] => Return contacts
  | [] :: rows' => header_rows fieldnames phone_col name_col rows' contacts
  | row :: rows' =>
      let d := row_dict fieldnames row in
      match get_strip d phone_col with
      | Throw e => Throw e
      | Return raw_phone =>
          match _normalise_phone raw_phone with
          | Throw (ValueError _) =>
              header_rows fieldnames phone_col name_col rows' contacts
          | Throw e => Throw e
          | Return phone =>
              let name :=
                match name_col with
                | Some (c :: col) => get_strip d (c :: col)
                | _ => Return []
                end in
              match name with
              | Throw e => Throw e
              | Return name =>
                  header_rows fieldnames phone_col name_col rows'
                    (contacts ++ [new_contact phone name])
              end
          end
      end
  end.

(** [for row_values in all_rows], without a header.  [_normalise_phone]
    raises nothing but the [ValueError] that skips the row. *)
Fixpoint plain_rows (rows : list (list str)) (contacts : list Contact)
    : list Contact :=
  match rows with
  | [] => contacts
  | [] :: rows' => plain_rows rows' contacts
  | (first :: others) :: rows' =>
      match _normalise_phone first with
      | Throw _ => plain_rows rows' contacts
      | Return phone =>
          let name :=
            match others with
            | second :: _ => strip second
            | [] => []
            end in
          plain_rows rows' (contacts ++ [new_contact phone name])
      end
  end.

(** What a row of a file without header contributes. *)
Definition plain_contact (row : list str) : list Contact :=
  match row with
  | [] => []
  | first :: others =>
      match _normalise_phone first with
      | Return phone => [new_contact phone (strip (hd [] others))]
      | Throw _ => []
      end
  end.

(** A phone number in the form the parser hands on: a plus sign, then one
    or more digits. *)
Definition plus_digits (p : str) : Prop :=
  exists digits,
    p = chr "+" :: digits /\ digits <> [] /\ forallb isdigit digits = true.

(** [parse_contacts_csv] on a [str]; [rows] is what [csv.reader] yields for
    it. *)
Definition parse_contacts_csv (rows : list (list str))
    : outcome (list Contact) :=
  let first_row := hd [] rows in
  let first_row_lower := map (fun c => strip (lower c)) first_row in
  let has_header := existsb (str_eqb (lit "phone")) first_row_lower in
  let parsed :=
    if has_header
    then
      let fieldnames := first_row_lower in
      match index (lit "phone") fieldnames with
      | None => Throw (ValueError NotInList)
      | Some i =>
          let phone_col := nth i first_row [] in
          let name_col :=
            match index (lit "name") fieldnames with
            | Some j => Some (nth j first_row [])
            | None => None
            end in
          header_rows first_row phone_col name_col (tl rows) []
      end
    else Return (plain_rows (first_row :: tl rows) [])
  in
  match parsed with
  | Throw e => Throw e
  | Return [] =>
      Throw (ContactParseError "No valid contacts found in CSV file")
  | Return contacts => Return contacts
  end.

(** *** [parse_contacts_excel] *)

(** A cell of the sheet as [iter_rows(values_only=True)] yields it: [None]
    for an empty cell, or a value, given by what [str] makes of it. *)
Definition cell : Type := option str.

(** [for row in rows[start_row:]]. *)
Fixpoint sheet_rows (phone_idx : nat) (name_idx : option nat)
    (rows : list (list cell)) (contacts : list Contact)
    : outcome (list Contact) :=
  match rows with
  | [] => Return contacts
  | [] :: rows' => sheet_rows phone_idx name_idx rows' contacts
  | row :: rows' =>
      match nth_error row phone_idx with
      | None => Throw IndexError
      | Some None => sheet_rows phone_idx name_idx rows' contacts
      | Some (Some raw_phone) =>
          match _normalise_phone raw_phone with
          | Throw (ValueError _) =>
              sheet_rows phone_idx name_idx rows' contacts
          | Throw e => Throw e
          | Return phone =>
              let name :=
                match name_idx with
                | Some j =>
                    match nth_error row j with
                    | Some (Some text) => strip text
                    | _ => []
                    end
                | None => []
                end in
              sheet_rows phone_idx name_idx rows'
                (contacts ++ [new_contact phone name])
          end
      end
  end.

(** [parse_contacts_excel]; [rows] is the active sheet of the workbook,
    [list(sheet.iter_rows(values_only=True))]. *)
Definition parse_contacts_excel (rows : list (list cell))
    : outcome (list Contact) :=
  match rows with
  | [] => Throw (ContactParseError "Excel file is empty")
  | top :: _ =>
      let first_row :=
        map (fun c : cell => match c with
                             | Some text => strip (lower text)
                             | None => []
                             end) top in
      let has_header := existsb (str_eqb (lit "phone")) first_row in
      let parsed :=
        if has_header
        then
          match index (lit "phone") first_row with
          | None => Throw (ValueError NotInList)
          | Some phone_idx =>
              let name_idx :=
                if existsb (str_eqb (lit "name")) first_row
                then index (lit "name") first_row
                else None in
              sheet_rows phone_idx name_idx (skipn 1 rows) []
          end
        else sheet_rows 0 None (skipn 0 rows) []
      in
      match parsed with
      | Throw e => Throw e
      | Return [] =>
          Throw (ContactParseError "No valid contacts found in Excel file")
      | Return contacts => Return contacts
      end
  end.

End WithUnicode.

End ContactParser.

(** * Proofs *)

(** ** Sanity checks of the embedding *)

Example int_examples :
  PyInt.int "10" = Some 10 /\ PyInt.int " -1_000 " = Some (-1000) /\
  PyInt.int "" = None /\ PyInt.int "1__0" = None /\
  PyInt.int "ten" = None /\
  PyInt.int (String (ascii_of_nat 28) "0") = None /\
  PyInt.int (String (ascii_of_nat 12) "0") = Some 0.
Proof. repeat split; reflexivity. Qed.

(** 4300 digits are read, 4301 are refused. *)
Example int_digit_limit :
  PyInt.int (string_of_list_ascii (repeat "1"%char 4300)) <> None /\
  PyInt.int (string_of_list_ascii (repeat "1"%char 4301)) = None.
Proof. split; vm_compute; [discriminate | reflexivity]. Qed.

(** test_per_second_limit_enforced: limit 2, three calls.  The third call
    finds the second window full, sleeps until the first grant is one second
    old and is then granted. *)
Example third_acquire_waits :
  let l0 := new 2 100 in
  exists l1 l2 l3,
    acquire [5%Q] l0 = Returned [] l1 /\
    acquire [5%Q] l1 = Returned [] l2 /\
    acquire [5%Q; 6%Q] l2 = Returned [1%Q] l3 /\
    _second_window l3 = [6%Q] /\
    _minute_window l3 = [5%Q; 5%Q; 6%Q].
Proof. repeat eexists. Qed.

(** test_clean_windows_removes_old_entries: an entry two seconds old is
    evicted by the count property. *)
Example aged_entry_evicted :
  fst (current_second_count 10 (set_windows [(10 - 2)%Q] [] (new 2 100))) = 0.
Proof. reflexivity. Qed.

(** ** Rounding to the nearest double *)

Section Rounding.

Import Binary64.
Local Open Scope Q_scope.

Lemma pow2_pos e : 0 < pow2 e.
Proof. apply Qpower_0_lt. reflexivity. Qed.

Lemma pow2_add a b : pow2 (a + b) == pow2 a * pow2 b.
Proof. apply Qpower_plus. discriminate. Qed.

Lemma pow2_le a b : (a <= b)%Z -> pow2 a <= pow2 b.
Proof. intros H. apply Qpower_le_compat_l; [exact H | discriminate]. Qed.

Lemma pow2_Z e : (0 <= e)%Z -> pow2 e == inject_Z (2 ^ e).
Proof. intros H. symmetry. apply (Zpower_Qpower 2 e H). Qed.

Lemma nearest_even_bounds q :
  (Qfloor q <= nearest_even q <= Qfloor q + 1)%Z.
Proof.
  unfold nearest_even.
  destruct (q - inject_Z (Qfloor q) ?= 1 # 2); [destruct (Z.even _)| |]; lia.
Qed.

Lemma nearest_even_Z k : nearest_even (inject_Z k) = k.
Proof.
  unfold nearest_even. rewrite Qfloor_Z.
  destruct (Qcompare_spec (inject_Z k - inject_Z k) (1 # 2));
    [lra | reflexivity | lra].
Qed.

Lemma nearest_even_mono x y :
  x <= y -> (nearest_even x <= nearest_even y)%Z.
Proof.
  intros Hle.
  pose proof (Qfloor_resp_le x y Hle) as Hf.
  pose proof (nearest_even_bounds x) as Hx.
  pose proof (nearest_even_bounds y) as Hy.
  destruct (Z.eq_dec (Qfloor x) (Qfloor y)) as [E|E]; [|lia].
  unfold nearest_even. rewrite <- E.
  destruct (Qcompare_spec (x - inject_Z (Qfloor x)) (1 # 2)) as [Hx'|Hx'|Hx'];
    destruct (Qcompare_spec (y - inject_Z (Qfloor x)) (1 # 2)) as [Hy'|Hy'|Hy'];
    try destruct (Z.even (Qfloor x)); try lia; lra.
Qed.

Lemma ilog2_spec q : 0 < q -> pow2 (ilog2 q) <= q /\ q < pow2 (ilog2 q + 1).
Proof.
  intros Hq. destruct q as [n d].
  assert (Hn : (0 < n)%Z).
  { unfold Qlt in Hq. simpl in Hq. lia. }
  unfold ilog2. cbn [Qnum Qden].
  set (a := Z.log2 n). set (b := Z.log2 (Zpos d)).
  destruct (Z.log2_spec n Hn) as [Ha1 Ha2]. fold a in Ha1, Ha2.
  destruct (Z.log2_spec (Zpos d) (eq_refl : (0 < Zpos d)%Z)) as [Hb1 Hb2].
  fold b in Hb1, Hb2.
  assert (Ha0 : (0 <= a)%Z) by apply Z.log2_nonneg.
  assert (Hb0 : (0 <= b)%Z) by apply Z.log2_nonneg.
  assert (Hqd : (n # d) * inject_Z (Zpos d) == inject_Z n).
  { rewrite Qmake_Qdiv. field. discriminate. }
  rewrite Zle_Qle in Ha1, Hb1. rewrite Zlt_Qlt in Ha2, Hb2.
  rewrite <- !pow2_Z in Ha1, Ha2, Hb1, Hb2 by lia.
  assert (Hup : (n # d) < pow2 (a - b + 1)).
  { apply (Qmult_lt_r _ _ (pow2 b) (pow2_pos b)).
    rewrite <- pow2_add. replace (a - b + 1 + b)%Z with (Z.succ a) by lia.
    pose proof (pow2_pos b). nra. }
  assert (Hlow : pow2 (a - b - 1) <= (n # d)).
  { apply (Qmult_le_r _ _ (pow2 (Z.succ b)) (pow2_pos _)).
    rewrite <- pow2_add. replace (a - b - 1 + Z.succ b)%Z with a by lia.
    nra. }
  destruct (Qle_bool (pow2 (a - b)) (n # d)) eqn:E.
  - apply Qle_bool_iff in E. split; assumption.
  - split; [exact Hlow|].
    replace (a - b - 1 + 1)%Z with (a - b)%Z by lia.
    apply Qnot_le_lt. intros H. apply Qle_bool_iff in H. congruence.
Qed.

Lemma ilog2_mono x y : 0 < x -> x <= y -> (ilog2 x <= ilog2 y)%Z.
Proof.
  intros Hx Hle.
  destruct (ilog2_spec x Hx) as [Hx1 _].
  destruct (ilog2_spec y) as [_ Hy2]; [lra|].
  destruct (Z_lt_le_dec (ilog2 y) (ilog2 x)) as [Hlt|]; [|assumption].
  assert (H : pow2 (ilog2 y + 1) <= pow2 (ilog2 x)) by (apply pow2_le; lia).
  lra.
Qed.

Lemma scaled_le (x y u : Q) (k : Z) :
  0 < u -> x <= y -> y == inject_Z k * u ->
  inject_Z (nearest_even (x / u)) * u <= y.
Proof.
  intros Hu Hle Hy.
  assert (H : x / u <= inject_Z k).
  { apply Qle_shift_div_r; [exact Hu|]. lra. }
  apply nearest_even_mono in H. rewrite nearest_even_Z in H.
  rewrite Zle_Qle in H. rewrite Hy.
  apply Qmult_le_compat_r; [exact H | lra].
Qed.

Lemma scaled_ge (x y u : Q) (k : Z) :
  0 < u -> x <= y -> x == inject_Z k * u ->
  x <= inject_Z (nearest_even (y / u)) * u.
Proof.
  intros Hu Hle Hx.
  assert (H : inject_Z k <= y / u).
  { apply Qle_shift_div_l; [exact Hu|]. lra. }
  apply nearest_even_mono in H. rewrite nearest_even_Z in H.
  rewrite Zle_Qle in H. rewrite Hx.
  apply Qmult_le_compat_r; [exact H | lra].
Qed.

Lemma round_positive_nonneg q : 0 < q -> 0 <= round_positive q.
Proof.
  intros Hq. unfold round_positive.
  set (u := pow2 _). assert (Hu : 0 < u) by apply pow2_pos.
  apply (scaled_ge 0 q u 0 Hu); [lra | ring].
Qed.

Lemma round_positive_mono x y :
  0 < x -> x <= y -> round_positive x <= round_positive y.
Proof.
  intros Hx Hle. assert (Hy : 0 < y) by lra.
  pose proof (ilog2_mono x y Hx Hle) as Hi.
  destruct (ilog2_spec x Hx) as [_ Hx2].
  destruct (ilog2_spec y Hy) as [Hy1 _].
  unfold round_positive.
  set (ex := Z.max (ilog2 x) (-1022)). set (ey := Z.max (ilog2 y) (-1022)).
  destruct (Z.eq_dec ex ey) as [E|E].
  - rewrite <- E. set (u := pow2 (ex - 52)).
    assert (Hu : 0 < u) by apply pow2_pos.
    assert (H : x / u <= y / u).
    { apply Qle_shift_div_l; [exact Hu|].
      assert (Hx' : x / u * u == x) by (field; lra). lra. }
    apply nearest_even_mono in H. rewrite Zle_Qle in H.
    apply Qmult_le_compat_r; [exact H | lra].
  - assert (Hlt : (ex < ey)%Z) by lia.
    assert (Ey : ey = ilog2 y) by lia.
    set (b := pow2 ey).
    assert (Hxb : x <= b).
    { assert (H : pow2 (ilog2 x + 1) <= pow2 ey) by (apply pow2_le; lia).
      unfold b. lra. }
    assert (Hby : b <= y) by (unfold b; rewrite Ey; exact Hy1).
    apply Qle_trans with b.
    + apply (scaled_le x b _ (2 ^ (ey - ex + 52)) (pow2_pos _) Hxb).
      rewrite <- pow2_Z by lia. rewrite <- pow2_add. unfold b.
      now replace (ey - ex + 52 + (ex - 52))%Z with ey by lia.
    + apply (scaled_ge b y _ (2 ^ 52) (pow2_pos _) Hby).
      rewrite <- pow2_Z by lia. rewrite <- pow2_add. unfold b.
      now replace (52 + (ey - 52))%Z with ey by lia.
Qed.

Lemma round_mono x y : x <= y -> round x <= round y.
Proof.
  intros Hle. unfold round. apply Qred_le.
  destruct (Qcompare_spec x 0) as [Hx|Hx|Hx];
    destruct (Qcompare_spec y 0) as [Hy|Hy|Hy]; try lra.
  - pose proof (round_positive_nonneg y Hy). lra.
  - pose proof (round_positive_nonneg (- x)). lra.
  - pose proof (round_positive_mono (- y) (- x)). lra.
  - pose proof (round_positive_nonneg (- x)).
    pose proof (round_positive_nonneg y Hy). lra.
  - now apply round_positive_mono.
Qed.

Lemma round_zero : round 0 = 0.
Proof. reflexivity. Qed.

Lemma round_nonneg q : 0 <= q -> 0 <= round q.
Proof. intros H. rewrite <- round_zero. now apply round_mono. Qed.

Lemma round_canonical q : Qred (round q) = round q.
Proof.
  unfold round. apply Qred_complete. apply Qred_correct.
Qed.

Lemma round_zero_canonical q : round q == 0 -> round q = 0.
Proof.
  intros H. rewrite <- round_canonical. now rewrite (Qred_complete _ _ H).
Qed.

Lemma is_double_fixed q : is_double q = true -> round q == q.
Proof.
  unfold is_double. intros H. apply andb_true_iff in H.
  now apply Qeq_bool_iff.
Qed.

End Rounding.

(** ** Trimming *)

Section Trimming.

Variable horizon : Q.

Lemma popleft_while_split (w : list Q) :
  exists evicted,
    w = evicted ++ popleft_while horizon w /\
    Forall (fun t => (t <= horizon)%Q) evicted.
Proof.
  induction w as [|t w IH]; simpl.
  - exists []. split; [reflexivity | constructor].
  - destruct (Qle_bool t horizon) eqn:E.
    + destruct IH as [ev [Hw Hev]].
      exists (t :: ev). split.
      * simpl. congruence.
      * constructor; [now apply Qle_bool_iff | exact Hev].
    + exists []. split; [reflexivity | constructor].
Qed.


Lemma popleft_while_fixed (w : list Q) :
  popleft_while horizon (popleft_while horizon w) = popleft_while horizon w.
Proof.
  induction w as [|a w IH]; simpl; [reflexivity|].
  destruct (Qle_bool a horizon) eqn:E; [exact IH|].
  simpl. now rewrite E.
Qed.

Lemma popleft_while_len (w : list Q) :
  len (popleft_while horizon w) <= len w.
Proof.
  destruct (popleft_while_split w) as [ev [Hw _]].
  unfold len. rewrite Hw at 2. rewrite length_app. lia.
Qed.

End Trimming.

(** ** Time-ordered windows *)

Lemma newer_lt (horizon t : Q) : newer horizon t = true <-> (horizon < t)%Q.
Proof.
  unfold newer. rewrite negb_true_iff. split.
  - intros E. apply Qnot_le_lt. intros H. apply Qle_bool_iff in H. congruence.
  - intros H. destruct (Qle_bool t horizon) eqn:E; [|reflexivity].
    apply Qle_bool_iff in E. lra.
Qed.

Lemma ascending_cons (t : Q) (w : list Q) :
  ascending (t :: w) = true ->
  Forall (fun u => (t <= u)%Q) w /\ ascending w = true.
Proof.
  revert t. induction w as [|a w IH]; intros t H.
  - split; [constructor | reflexivity].
  - change (Qle_bool t a && ascending (a :: w) = true) in H.
    apply andb_true_iff in H. destruct H as [Hta Hw].
    apply Qle_bool_iff in Hta.
    split; [|exact Hw].
    constructor; [exact Hta|].
    destruct (IH a Hw) as [Hall _].
    eapply Forall_impl; [|exact Hall].
    simpl. intros u Hu. lra.
Qed.

Lemma filter_keeps_all (f : Q -> bool) (w : list Q) :
  Forall (fun t => f t = true) w -> filter f w = w.
Proof.
  induction 1 as [|t w Ht _ IH]; simpl; [reflexivity|].
  now rewrite Ht, IH.
Qed.

(** On a time-ordered window, trimming at the head is a filter: it drops
    every entry at or before the horizon and nothing else. *)
Lemma popleft_while_filter (horizon : Q) (w : list Q) :
  ascending w = true ->
  popleft_while horizon w = filter (newer horizon) w.
Proof.
  induction w as [|a w IH]; intros Hasc; [reflexivity|].
  destruct (ascending_cons a w Hasc) as [Hall Hw].
  simpl. unfold newer at 1.
  destruct (Qle_bool a horizon) eqn:E; simpl.
  - exact (IH Hw).
  - f_equal. symmetry. apply filter_keeps_all.
    eapply Forall_impl; [|exact Hall].
    simpl. intros u Hu. apply newer_lt.
    assert (horizon < a)%Q; [|lra].
    apply Qnot_le_lt. intros H. apply Qle_bool_iff in H. congruence.
Qed.

Lemma _clean_windows_fixed (now : Q) (self : RateLimiter) :
  _clean_windows now (_clean_windows now self) = _clean_windows now self.
Proof.
  unfold _clean_windows, set_windows. simpl.
  now rewrite !popleft_while_fixed.
Qed.

(** C6, as amended: trimming a time-ordered window at [now] evicts exactly
    the entries whose timestamp is at or before the horizon ([now - 1] for
    the second window, [now - 60] for the minute window) and retains, in
    order, exactly the entries strictly newer than the horizon; each count
    property returns the size of its window after this trim and leaves the
    trimmed limiter. *)
Theorem trim_evicts_up_to_horizon (now : Q) (self : RateLimiter) :
  ascending (_second_window self) = true ->
  ascending (_minute_window self) = true ->
  let trimmed := _clean_windows now self in
  _second_window trimmed = filter (newer (now - 1)) (_second_window self) /\
  _minute_window trimmed = filter (newer (now - 60)) (_minute_window self) /\
  (forall t, In t (_second_window trimmed) <->
             In t (_second_window self) /\ (now - 1 < t)%Q) /\
  (forall t, In t (_minute_window trimmed) <->
             In t (_minute_window self) /\ (now - 60 < t)%Q) /\
  current_second_count now self = (len (_second_window trimmed), trimmed) /\
  current_minute_count now self = (len (_minute_window trimmed), trimmed).
Proof.
  intros Hs Hm trimmed.
  assert (Es : _second_window trimmed
               = filter (newer (now - 1)) (_second_window self))
    by (apply popleft_while_filter; exact Hs).
  assert (Em : _minute_window trimmed
               = filter (newer (now - 60)) (_minute_window self))
    by (apply popleft_while_filter; exact Hm).
  split; [exact Es|]. split; [exact Em|].
  split; [intros t; split | split; [intros t; split | split; reflexivity]].
  - intros H. rewrite Es in H. apply filter_In in H.
    destruct H as [Hin Hnew]. split; [exact Hin | now apply newer_lt].
  - intros [Hin Hlt]. rewrite Es. apply filter_In. split; [exact Hin|].
    now apply newer_lt.
  - intros H. rewrite Em in H. apply filter_In in H.
    destruct H as [Hin Hnew]. split; [exact Hin | now apply newer_lt].
  - intros [Hin Hlt]. rewrite Em. apply filter_In. split; [exact Hin|].
    now apply newer_lt.
Qed.

Lemma trim_evicts_up_to_horizon_witness :
  let self := set_windows [3%Q; 4%Q] [1%Q; 3%Q; 4%Q] (new 10 100) in
  _second_window (_clean_windows 4 self) = [4%Q] /\
  current_second_count 4 self = (1, _clean_windows 4 self).
Proof.
  intros self.
  destruct (trim_evicts_up_to_horizon 4 self eq_refl eq_refl)
    as [Es [_ [_ [_ [Ec _]]]]].
  split; [exact Es | exact Ec].
Defined.

(** C6 as stated fails at the boundary: a grant made at clock 0 sits exactly
    at the horizon of the second window when the clock reads 1 (and of the
    minute window when it reads 60); it is evicted, not retained. *)
Lemma entry_at_horizon_evicted :
  let self := run [(Acquire, 0%Q)] (new 10 100) in
  In 0%Q (_second_window self) /\ (1 - 1 <= 0)%Q /\
  ~ In 0%Q (_second_window (_clean_windows 1 self)) /\
  fst (current_second_count 1 self) = 0 /\
  In 0%Q (_minute_window self) /\ (60 - 60 <= 0)%Q /\
  ~ In 0%Q (_minute_window (_clean_windows 60 self)) /\
  fst (current_minute_count 60 self) = 0.
Proof.
  cbv zeta.
  change (run [(Acquire, 0%Q)] (new 10 100))
    with (mkRateLimiter 10 100 [0%Q] [0%Q] false).
  assert (H1 : (1 - 1 <= 0)%Q) by lra.
  assert (H60 : (60 - 60 <= 0)%Q) by lra.
  simpl.
  repeat match goal with
         | |- _ /\ _ => split
         end;
    try assumption; try reflexivity; try (now left); intros [].
Qed.

(** ** Count properties *)

Lemma count_state (q : query) (now : Q) (self : RateLimiter) :
  snd (count q now self) = _clean_windows now self.
Proof. destruct q; reflexivity. Qed.

Lemma count_after_trim (q : query) (now : Q) (self : RateLimiter) :
  count q now (_clean_windows now self) = count q now self.
Proof.
  destruct q; unfold count, current_second_count, current_minute_count;
    now rewrite _clean_windows_fixed.
Qed.

Lemma counts_from_trimmed (qs : list query) (now : Q) (self : RateLimiter) :
  counts qs now (_clean_windows now self)
  = (map (fun k => fst (count k now self)) qs, _clean_windows now self).
Proof.
  induction qs as [|q qs IH]; [reflexivity|].
  simpl. rewrite count_after_trim.
  destruct (count q now self) as [n self'] eqn:E.
  assert (Hs : self' = _clean_windows now self)
    by (rewrite <- (count_state q), E; reflexivity).
  subst self'. now rewrite IH.
Qed.

Lemma acquire_attempt_after_trim (now : Q) (self : RateLimiter) :
  _lock self = false ->
  acquire_attempt now (_clean_windows now self) = acquire_attempt now self.
Proof.
  intros Hfree. unfold acquire_attempt.
  change (_lock (_clean_windows now self)) with (_lock self).
  rewrite Hfree.
  change (set_lock true (_clean_windows now self))
    with (_clean_windows now (set_lock true self)).
  now rewrite _clean_windows_fixed.
Qed.

Lemma granting_after_trim (o : op) (now : Q) (self : RateLimiter) :
  granting o now (_clean_windows now self) = granting o now self.
Proof.
  destruct o as [|q]; [|reflexivity].
  unfold granting. destruct (_lock self) eqn:Hlock.
  - unfold acquire_attempt.
    change (_lock (_clean_windows now self)) with (_lock self).
    now rewrite Hlock.
  - now rewrite acquire_attempt_after_trim.
Qed.

(** C7: any number of count properties read at one instant, in any mix,
    return what a single call of each returns and leave the limiter that a
    single call leaves (the limiter trimmed once at that instant).  They add
    no entry: each window afterwards is the old window without some head
    entries.  They consume no capacity: a pass of [acquire] at the same
    instant grants after the queries exactly when it grants without them. *)
Theorem counts_idempotent (q : query) (qs : list query) (now : Q)
    (self : RateLimiter) :
  fst (counts (q :: qs) now self)
    = map (fun k => fst (count k now self)) (q :: qs) /\
  snd (counts (q :: qs) now self) = snd (count q now self) /\
  snd (counts (q :: qs) now self) = _clean_windows now self /\
  (exists evicted_s evicted_m,
     _second_window self
       = evicted_s ++ _second_window (snd (counts (q :: qs) now self)) /\
     _minute_window self
       = evicted_m ++ _minute_window (snd (counts (q :: qs) now self))) /\
  granting Acquire now (snd (counts (q :: qs) now self))
    = granting Acquire now self.
Proof.
  assert (E : counts (q :: qs) now self
              = (map (fun k => fst (count k now self)) (q :: qs),
                 _clean_windows now self)).
  { simpl. destruct (count q now self) as [n self'] eqn:Eq.
    assert (Hs : self' = _clean_windows now self)
      by (rewrite <- (count_state q), Eq; reflexivity).
    subst self'. now rewrite counts_from_trimmed. }
  rewrite E. simpl fst. simpl snd.
  split; [reflexivity|].
  split; [now rewrite count_state|].
  split; [reflexivity|].
  split; [|apply granting_after_trim].
  destruct (popleft_while_split (now - 1) (_second_window self))
    as [es [Hes _]].
  destruct (popleft_while_split (now - 60) (_minute_window self))
    as [em [Hem _]].
  exists es, em. split; assumption.
Qed.

(** Two reads of each property at one instant, on windows with stale heads. *)
Example counts_twice :
  counts [SecondCount; MinuteCount; SecondCount; MinuteCount] 70
    (set_windows [8%Q; 69.5%Q] [8%Q; 30%Q; 69.5%Q] (new 2 100))
  = ([1; 2; 1; 2], set_windows [69.5%Q] [30%Q; 69.5%Q] (new 2 100)).
Proof. reflexivity. Qed.

(** ** One pass of [acquire] *)


Lemma len_nil_lt (limit : Z) : 1 <= limit -> (len [] <? limit) = true.
Proof. intros H. apply Z.ltb_lt. unfold len. simpl. lia. Qed.

Lemma acquire_attempt_unfold (now : Q) (self : RateLimiter) :
  _lock self = false ->
  let trimmed := _clean_windows now self in
  acquire_attempt now self =
    if per_second_ok now self && per_minute_ok now self
    then Granted (set_windows (_second_window trimmed ++ [now])
                               (_minute_window trimmed ++ [now]) self)
    else match calculate_wait now (per_second_ok now self)
                 (per_minute_ok now self) trimmed with
         | Ok wait => Sleeping wait trimmed
         | Raise e => Raised e trimmed
         end.
Proof.
  destruct self as [ps pm sw mw lk]. simpl. intros ->. reflexivity.
Qed.

Lemma attempt_below_caps (now : Q) (self : RateLimiter) :
  _lock self = false ->
  let trimmed := _clean_windows now self in
  len (_second_window trimmed) < messages_per_second self ->
  len (_minute_window trimmed) < messages_per_minute self ->
  acquire_attempt now self
  = Granted (set_windows (_second_window trimmed ++ [now])
                         (_minute_window trimmed ++ [now]) self).
Proof.
  intros Hfree trimmed Hs Hm.
  rewrite (acquire_attempt_unfold now self Hfree). cbv zeta.
  unfold per_second_ok, per_minute_ok. fold trimmed.
  apply Z.ltb_lt in Hs. apply Z.ltb_lt in Hm.
  now rewrite Hs, Hm.
Qed.

(** C3: when, after trimming at the clock value [now], both windows are
    below their caps, the pass appends [now] at the tail of both trimmed
    windows and returns; the whole call returns in its first pass, having
    slept for nothing. *)
Theorem acquire_grants_below_caps (now : Q) (later : list Q)
    (self : RateLimiter) :
  _lock self = false ->
  let trimmed := _clean_windows now self in
  len (_second_window trimmed) < messages_per_second self ->
  len (_minute_window trimmed) < messages_per_minute self ->
  let granted := set_windows (_second_window trimmed ++ [now])
                             (_minute_window trimmed ++ [now]) self in
  acquire_attempt now self = Granted granted /\
  acquire (now :: later) self = Returned [] granted /\
  In now (_second_window granted) /\ In now (_minute_window granted).
Proof.
  intros Hfree trimmed Hs Hm granted.
  pose proof (attempt_below_caps now self Hfree Hs Hm) as E.
  fold granted in E.
  split; [exact E|].
  split; [unfold acquire; simpl; now rewrite E|].
  unfold granted. simpl.
  split; apply in_or_app; right; now left.
Qed.

Lemma acquire_grants_below_caps_witness :
  let self := set_windows [4%Q; 9.5%Q] [4%Q; 9.5%Q] (new 2 100) in
  acquire [10%Q] self
  = Returned [] (set_windows [9.5%Q; 10%Q] [4%Q; 9.5%Q; 10%Q] self).
Proof.
  intros self.
  refine (proj1 (proj2 (acquire_grants_below_caps 10 [] self eq_refl _ _)));
    reflexivity.
Defined.


(** The wait of a window whose head is within its span of a clock reading
    does not come out negative: the sum rounds to a double that is not below
    the reading. *)
Lemma window_wait_nonneg (now x : Q) :
  Binary64.is_double now = true -> (now <= x)%Q ->
  (0 <= Binary64.round (Binary64.round x - now))%Q.
Proof.
  intros Hnow Hle. apply round_nonneg.
  pose proof (round_mono now x Hle) as Hm.
  pose proof (is_double_fixed now Hnow) as Hfix. lra.
Qed.

(** [max(0.0, w)] is [w] for a double [w] that is not negative. *)
Lemma py_max_zero_round (q : Q) :
  (0 <= Binary64.round q)%Q -> py_max 0 (Binary64.round q) = Binary64.round q.
Proof.
  intros Hq. unfold py_max.
  destruct (Qle_bool (Binary64.round q) 0) eqn:E; [|reflexivity].
  apply Qle_bool_iff in E. symmetry. apply round_zero_canonical. lra.
Qed.

(** Where the two float operations are exact, the wait is the difference
    itself. *)
Lemma window_wait_exact (now x : Q) :
  Binary64.is_double x = true -> Binary64.is_double (x - now) = true ->
  (Binary64.round (Binary64.round x - now) == x - now)%Q.
Proof.
  intros Hx Hd.
  pose proof (is_double_fixed x Hx) as Ex.
  pose proof (is_double_fixed (x - now) Hd) as Ed.
  assert (E : (Binary64.round x - now == x - now)%Q) by lra.
  apply Qle_antisym.
  - apply Qle_trans with (Binary64.round (x - now));
      [apply round_mono; lra | lra].
  - apply Qle_trans with (Binary64.round (x - now));
      [lra | apply round_mono; lra].
Qed.

Lemma full_window_nonempty (limit : Z) (w : list Q) :
  1 <= limit -> (len w <? limit) = false -> exists h rest, w = h :: rest.
Proof.
  intros Hlimit Hfull. destruct w as [|h rest].
  - rewrite (len_nil_lt limit Hlimit) in Hfull. discriminate.
  - now exists h, rest.
Qed.

Lemma sleeping_trimmed (now wait : Q) (self slept : RateLimiter) :
  acquire_attempt now self = Sleeping wait slept ->
  _lock self = false /\ slept = _clean_windows now self.
Proof.
  intros Hsleep. destruct (_lock self) eqn:Hfree.
  - unfold acquire_attempt in Hsleep. rewrite Hfree in Hsleep. discriminate.
  - split; [reflexivity|].
    rewrite (acquire_attempt_unfold now self Hfree) in Hsleep.
    cbv zeta in Hsleep.
    destruct (per_second_ok now self && per_minute_ok now self);
      [discriminate|].
    destruct (calculate_wait _ _ _ _); [|discriminate].
    now injection Hsleep as _ <-.
Qed.


(** A pass that finds a window at its cap sleeps, unless that window is
    empty: then the limit is below 1 and reading the head raises. *)
Lemma full_window_pass (now : Q) (self : RateLimiter) :
  _lock self = false ->
  let trimmed := _clean_windows now self in
  messages_per_second self <= len (_second_window trimmed) \/
  messages_per_minute self <= len (_minute_window trimmed) ->
  (exists wait, acquire_attempt now self = Sleeping wait trimmed) \/
  (acquire_attempt now self = Raised IndexError trimmed /\
   ((messages_per_second self <= 0 /\ _second_window trimmed = []) \/
    (messages_per_minute self <= 0 /\ _minute_window trimmed = []))).
Proof.
  intros Hfree trimmed Hfull.
  rewrite (acquire_attempt_unfold now self Hfree). cbv zeta.
  unfold per_second_ok, per_minute_ok. fold trimmed.
  unfold calculate_wait.
  destruct (len (_second_window trimmed) <? messages_per_second self) eqn:Es;
    destruct (len (_minute_window trimmed) <? messages_per_minute self) eqn:Em;
    cbn [andb negb].
  - apply Z.ltb_lt in Es. apply Z.ltb_lt in Em. lia.
  - apply Z.ltb_ge in Em.
    destruct (_minute_window trimmed) as [|h rest] eqn:Eh; simpl.
    + right. split; [reflexivity|]. right. split; [exact Em | reflexivity].
    + left. eexists. reflexivity.
  - apply Z.ltb_ge in Es.
    destruct (_second_window trimmed) as [|h rest] eqn:Eh; simpl.
    + right. split; [reflexivity|]. left. split; [exact Es | reflexivity].
    + left. eexists. reflexivity.
  - apply Z.ltb_ge in Es. apply Z.ltb_ge in Em.
    destruct (_second_window trimmed) as [|h rest] eqn:Eh;
      destruct (_minute_window trimmed) as [|h' rest'] eqn:Eh'; simpl.
    + right. split; [reflexivity|]. left. split; [exact Es | reflexivity].
    + right. split; [reflexivity|]. left. split; [exact Es | reflexivity].
    + right. split; [reflexivity|]. right. split; [exact Em | reflexivity].
    + left. eexists. reflexivity.
Qed.



(** The same pass, evaluated: both windows are full, the minute window asks
    for the longer wait. *)
Example wait_both_full :
  acquire_attempt 10
    (set_windows [9.25%Q; 9.5%Q] [4%Q; 9.25%Q; 9.5%Q] (new 2 3))
  = Sleeping (4 + 60 - 10)%Q
      (set_windows [9.25%Q; 9.5%Q] [4%Q; 9.25%Q; 9.5%Q] (new 2 3)).
Proof. vm_compute. reflexivity. Qed.

(** A wait of zero: the grant was stamped with the double nearest to 3.6 and
    the clock reads the double nearest to 4.6, less than a second later.  The
    entry is not evicted, and 3.6 + 1 rounds to the reading itself, so the
    pass sleeps for 0.0. *)
Example wait_of_zero :
  let stamp := Binary64.round 3.6 in
  let now := Binary64.round 4.6 in
  let self := set_windows [stamp] [stamp] (new 1 100) in
  (now < stamp + 1)%Q /\
  acquire_attempt now self = Sleeping 0 self.
Proof. split; vm_compute; reflexivity. Qed.

Lemma calculate_wait_ok (now : Q) (second_ok minute_ok : bool)
    (self : RateLimiter) :
  (second_ok = false -> _second_window self <> []) ->
  (minute_ok = false -> _minute_window self <> []) ->
  exists wait, calculate_wait now second_ok minute_ok self = Ok wait.
Proof.
  destruct self as [ps pm sw mw lk]. unfold calculate_wait. simpl.
  intros Hs Hm.
  destruct second_ok, minute_ok, sw as [|hs sw], mw as [|hm mw]; simpl;
    try (now elim Hs); try (now elim Hm); eexists; reflexivity.
Qed.

(** C10: with both limits at least 1, a window that the wait computation
    reads at its head is not empty (a trimmed window at or above its cap has
    an entry), so the computation returns a wait and no pass of [acquire]
    ends with an exception. *)
Theorem head_read_never_faults (now : Q) (self : RateLimiter) :
  1 <= messages_per_second self ->
  1 <= messages_per_minute self ->
  let trimmed := _clean_windows now self in
  (per_second_ok now self = false -> _second_window trimmed <> []) /\
  (per_minute_ok now self = false -> _minute_window trimmed <> []) /\
  (exists wait,
     calculate_wait now (per_second_ok now self) (per_minute_ok now self)
       trimmed = Ok wait) /\
  (forall e after_it, acquire_attempt now self <> Raised e after_it).
Proof.
  intros Hps Hpm trimmed.
  assert (Hs : per_second_ok now self = false -> _second_window trimmed <> []).
  { unfold per_second_ok. fold trimmed. intros Hfull Hnil.
    rewrite Hnil in Hfull. now rewrite (len_nil_lt _ Hps) in Hfull. }
  assert (Hm : per_minute_ok now self = false -> _minute_window trimmed <> []).
  { unfold per_minute_ok. fold trimmed. intros Hfull Hnil.
    rewrite Hnil in Hfull. now rewrite (len_nil_lt _ Hpm) in Hfull. }
  assert (Hw : exists wait,
             calculate_wait now (per_second_ok now self)
               (per_minute_ok now self) trimmed = Ok wait).
  { apply calculate_wait_ok; assumption. }
  split; [exact Hs|]. split; [exact Hm|]. split; [exact Hw|].
  intros e after_it. destruct (_lock self) eqn:Hlock.
  - unfold acquire_attempt. rewrite Hlock. discriminate.
  - rewrite (acquire_attempt_unfold now self Hlock). cbv zeta.
    fold trimmed. destruct Hw as [wait ->].
    destruct (per_second_ok now self && per_minute_ok now self);
      discriminate.
Qed.

Lemma head_read_never_faults_witness :
  let self := set_windows [9.5%Q] [9.5%Q] (new 1 1) in
  exists wait,
    calculate_wait 10 (per_second_ok 10 self) (per_minute_ok 10 self)
      (_clean_windows 10 self) = Ok wait.
Proof.
  intros self.
  refine (proj1 (proj2 (proj2 (head_read_never_faults 10 self _ _))));
    unfold self; simpl; lia.
Defined.

(** Below 1 the head read does fault: a fresh limiter whose limit is 0 or
    negative has empty windows that count as full. *)
Example head_read_faults_without_limit :
  acquire_attempt 0 (new 0 100) = Raised IndexError (new 0 100) /\
  acquire_attempt 0 (new 10 (-3)) = Raised IndexError (new 10 (-3)) /\
  acquire [0%Q; 1%Q] (new (-1) 100) = Failed IndexError (new (-1) 100).
Proof. repeat split. Qed.

(** ** Construction *)

Lemma py_or_truthy (n : Z) (fallback : result Z) :
  n <> 0 -> py_or (Some n) fallback = Ok n.
Proof.
  intros Hn. unfold py_or. destruct (n =? 0) eqn:E; [|reflexivity].
  apply Z.eqb_eq in E. contradiction.
Qed.

Lemma py_or_falsy (arg : option Z) (fallback : result Z) :
  arg = None \/ arg = Some 0 -> py_or arg fallback = fallback.
Proof. intros [-> | ->]; reflexivity. Qed.

Lemma py_or_cases (arg : option Z) :
  (exists n, arg = Some n /\ n <> 0) \/ (arg = None \/ arg = Some 0).
Proof.
  destruct arg as [n|]; [|right; now left].
  destruct (Z.eq_dec n 0) as [-> | Hn]; [right; now right|].
  left. now exists n.
Qed.

(** The limit the constructor takes for one argument: the argument when it
    is truthy, and [int] of the environment text otherwise. *)
Lemma py_or_limit (int : string -> option Z) (arg : option Z)
    (text : string) :
  (exists n, arg = Some n /\ n <> 0 /\
             py_or arg (call_int int text) = Ok n) \/
  ((arg = None \/ arg = Some 0) /\
   ((exists n, int text = Some n /\ py_or arg (call_int int text) = Ok n) \/
    (int text = None /\ py_or arg (call_int int text) = Raise ValueError))).
Proof.
  destruct (py_or_cases arg) as [[n [-> Hn]] | Hfalsy].
  - left. exists n. split; [reflexivity|]. split; [exact Hn|].
    now apply py_or_truthy.
  - right. split; [exact Hfalsy|].
    rewrite (py_or_falsy arg _ Hfalsy). unfold call_int.
    destruct (int text) as [n|].
    + left. now exists n.
    + right. now split.
Qed.

Lemma init_ok (int : string -> option Z) (s m : option Z) (env : environ)
    (ps pm : Z) :
  py_or s (call_int int (getenv env "RATE_LIMIT_MESSAGES_PER_SECOND" "10"))
  = Ok ps ->
  py_or m (call_int int (getenv env "RATE_LIMIT_MESSAGES_PER_MINUTE" "100"))
  = Ok pm ->
  init int s m env = Ok (mkRateLimiter ps pm [] [] false).
Proof. intros Hs Hm. unfold init. now rewrite Hs, Hm. Qed.

(** C9 as stated fails in its first clause: with the variable set to 0, a
    zero argument does configure a zero limit. *)
Lemma zero_argument_configures_zero :
  let env : environ := fun key =>
    if String.eqb key "RATE_LIMIT_MESSAGES_PER_SECOND" then Some "0"%string
    else None in
  init PyInt.int (Some 0) (Some 5) env = Ok (mkRateLimiter 0 5 [] [] false) /\
  init PyInt.int None (Some 5) env = Ok (mkRateLimiter 0 5 [] [] false).
Proof. split; reflexivity. Qed.

(** C9, as amended: a limit argument of 0 is treated exactly as an omitted
    argument.  The limit is then [int] of the environment variable's text, and
    of the default text (10 per second, 100 per minute) when the variable is
    not set; construction raises [ValueError] when [int] does.  The resulting
    limit is 0 only when the variable is set and [int] reads its text as 0.
    [int "10" = 10] and [int "100" = 100] are what is used of the builtin. *)
Theorem zero_argument_is_omitted (int : string -> option Z)
    (other : option Z) (env : environ) :
  int "10"%string = Some 10 -> int "100"%string = Some 100 ->
  let second_text := getenv env "RATE_LIMIT_MESSAGES_PER_SECOND" "10" in
  let minute_text := getenv env "RATE_LIMIT_MESSAGES_PER_MINUTE" "100" in
  init int (Some 0) other env = init int None other env /\
  init int other (Some 0) env = init int other None env /\
  (forall k limit : Z,
     k <> 0 -> int second_text = Some limit ->
     init int (Some 0) (Some k) env
     = Ok (mkRateLimiter limit k [] [] false)) /\
  (forall k limit : Z,
     k <> 0 -> int minute_text = Some limit ->
     init int (Some k) (Some 0) env
     = Ok (mkRateLimiter k limit [] [] false)) /\
  (forall k : Z,
     k <> 0 -> int second_text = None ->
     init int (Some 0) (Some k) env = Raise ValueError) /\
  (forall k : Z,
     k <> 0 -> int minute_text = None ->
     init int (Some k) (Some 0) env = Raise ValueError) /\
  (env "RATE_LIMIT_MESSAGES_PER_SECOND"%string = None ->
   forall k : Z, k <> 0 ->
   init int (Some 0) (Some k) env = Ok (mkRateLimiter 10 k [] [] false)) /\
  (env "RATE_LIMIT_MESSAGES_PER_MINUTE"%string = None ->
   forall k : Z, k <> 0 ->
   init int (Some k) (Some 0) env = Ok (mkRateLimiter k 100 [] [] false)) /\
  (env "RATE_LIMIT_MESSAGES_PER_SECOND"%string = None ->
   env "RATE_LIMIT_MESSAGES_PER_MINUTE"%string = None ->
   init int (Some 0) (Some 0) env = Ok (mkRateLimiter 10 100 [] [] false)) /\
  (forall self : RateLimiter,
     init int (Some 0) other env = Ok self ->
     int second_text = Some (messages_per_second self) /\
     (messages_per_second self = 0 ->
      exists text, env "RATE_LIMIT_MESSAGES_PER_SECOND"%string = Some text /\
                   int text = Some 0)) /\
  (forall self : RateLimiter,
     init int other (Some 0) env = Ok self ->
     int minute_text = Some (messages_per_minute self) /\
     (messages_per_minute self = 0 ->
      exists text, env "RATE_LIMIT_MESSAGES_PER_MINUTE"%string = Some text /\
                   int text = Some 0)).
Proof.
  intros H10 H100 second_text minute_text.
  assert (Hsec : forall k limit : Z,
             k <> 0 -> int second_text = Some limit ->
             init int (Some 0) (Some k) env
             = Ok (mkRateLimiter limit k [] [] false)).
  { intros k limit Hk Hint. apply init_ok.
    - simpl. fold second_text. unfold call_int. now rewrite Hint.
    - now apply py_or_truthy. }
  assert (Hmin : forall k limit : Z,
             k <> 0 -> int minute_text = Some limit ->
             init int (Some k) (Some 0) env
             = Ok (mkRateLimiter k limit [] [] false)).
  { intros k limit Hk Hint. apply init_ok.
    - now apply py_or_truthy.
    - simpl. fold minute_text. unfold call_int. now rewrite Hint. }
  assert (Esec : env "RATE_LIMIT_MESSAGES_PER_SECOND"%string = None ->
                 int second_text = Some 10).
  { intros Hs. unfold second_text, getenv. now rewrite Hs. }
  assert (Emin : env "RATE_LIMIT_MESSAGES_PER_MINUTE"%string = None ->
                 int minute_text = Some 100).
  { intros Hm. unfold minute_text, getenv. now rewrite Hm. }
  split; [reflexivity|]. split; [reflexivity|].
  split; [exact Hsec|]. split; [exact Hmin|].
  split; [|split; [|split; [|split; [|split; [|split]]]]].
  - intros k Hk Hint. unfold init. simpl py_or. fold second_text.
    unfold call_int. now rewrite Hint.
  - intros k Hk Hint. unfold init. rewrite (py_or_truthy k _ Hk).
    simpl. fold minute_text. unfold call_int. now rewrite Hint.
  - intros Hs k Hk. apply Hsec; [exact Hk | now apply Esec].
  - intros Hm k Hk. apply Hmin; [exact Hk | now apply Emin].
  - intros Hs Hm. apply init_ok; simpl.
    + fold second_text. unfold call_int. now rewrite (Esec Hs).
    + fold minute_text. unfold call_int. now rewrite (Emin Hm).
  - clear Hsec Hmin. intros self Hinit.
    unfold init in Hinit. simpl py_or in Hinit.
    fold second_text in Hinit. unfold call_int in Hinit at 1.
    destruct (int second_text) as [limit|] eqn:Hint; [|discriminate].
    simpl in Hinit.
    destruct (py_or other _) as [pm|e]; [|discriminate].
    simpl in Hinit. injection Hinit as <-. simpl.
    split; [reflexivity|]. intros ->.
    destruct (env "RATE_LIMIT_MESSAGES_PER_SECOND"%string) as [text|] eqn:Hs.
    + exists text. split; [reflexivity|].
      unfold second_text, getenv in Hint. now rewrite Hs in Hint.
    + specialize (Esec eq_refl). congruence.
  - clear Hsec Hmin. intros self Hinit. unfold init in Hinit.
    destruct (py_or other _) as [ps|e]; [|discriminate].
    simpl in Hinit. fold minute_text in Hinit. unfold call_int in Hinit.
    destruct (int minute_text) as [limit|] eqn:Hint; [|discriminate].
    simpl in Hinit. injection Hinit as <-. simpl.
    split; [reflexivity|]. intros ->.
    destruct (env "RATE_LIMIT_MESSAGES_PER_MINUTE"%string) as [text|] eqn:Hm.
    + exists text. split; [reflexivity|].
      unfold minute_text, getenv in Hint. now rewrite Hm in Hint.
    + specialize (Emin eq_refl). congruence.
Qed.

Lemma zero_argument_is_omitted_witness :
  init PyInt.int (Some 0) (Some 0) empty_environ
  = Ok (mkRateLimiter 10 100 [] [] false).
Proof.
  refine (proj1 (proj2 (proj2 (proj2 (proj2 (proj2 (proj2 (proj2 (proj2
            (zero_argument_is_omitted PyInt.int None empty_environ
               eq_refl eq_refl))))))))) _ _);
    reflexivity.
Defined.

(** The environment decides the limit of a zero argument, whatever it holds. *)
Example zero_argument_reads_environment :
  let env : environ := fun key =>
    if String.eqb key "RATE_LIMIT_MESSAGES_PER_SECOND" then Some "25"%string
    else None in
  init PyInt.int (Some 0) None env = Ok (new 25 100) /\
  init PyInt.int (Some 7) None env = Ok (new 7 100).
Proof. split; reflexivity. Qed.

(** C2 as stated fails: the constructor returns an instance for a negative
    limit, whether it comes from an argument or from the environment, and for
    a zero limit from the environment; no error is raised. *)
Lemma nonpositive_limits_accepted :
  let env : environ := fun key =>
    if String.eqb key "RATE_LIMIT_MESSAGES_PER_MINUTE" then Some "-60"%string
    else Some "0"%string in
  init PyInt.int (Some (-1)) (Some 5) empty_environ
  = Ok (mkRateLimiter (-1) 5 [] [] false) /\
  init PyInt.int (Some 5) (Some (-60)) empty_environ
  = Ok (mkRateLimiter 5 (-60) [] [] false) /\
  init PyInt.int None None env = Ok (mkRateLimiter 0 (-60) [] [] false) /\
  init PyInt.int (Some 0) (Some 0) env
  = Ok (mkRateLimiter 0 (-60) [] [] false).
Proof. repeat split. Qed.

(** C2, as amended: the constructor rejects no limit.  Each limit is the
    argument when that is an integer other than 0, negative ones included,
    and otherwise (argument omitted or 0) [int] of the text of the
    environment variable, or of the default text when the variable is not
    set, whatever integer that is, 0 and negative ones included.  With both
    limits found, construction returns the instance with these limits, empty
    windows and a free lock, and it returns no other.  It raises only
    [ValueError], and exactly when [int] raises it on a text that is read:
    there is no invalid-configuration error. *)
Theorem init_rejects_no_limit (int : string -> option Z)
    (s m : option Z) (env : environ) :
  let second_text := getenv env "RATE_LIMIT_MESSAGES_PER_SECOND" "10" in
  let minute_text := getenv env "RATE_LIMIT_MESSAGES_PER_MINUTE" "100" in
  let taken (arg : option Z) (text : string) (limit : Z) : Prop :=
    (arg = Some limit /\ limit <> 0) \/
    ((arg = None \/ arg = Some 0) /\ int text = Some limit) in
  let refused (arg : option Z) (text : string) : Prop :=
    (arg = None \/ arg = Some 0) /\ int text = None in
  (forall ps pm : Z,
     taken s second_text ps -> taken m minute_text pm ->
     init int s m env = Ok (mkRateLimiter ps pm [] [] false)) /\
  (forall self : RateLimiter,
     init int s m env = Ok self ->
     exists ps pm : Z,
       taken s second_text ps /\ taken m minute_text pm /\
       self = mkRateLimiter ps pm [] [] false) /\
  (refused s second_text \/ refused m minute_text ->
   init int s m env = Raise ValueError) /\
  (forall e : exn,
     init int s m env = Raise e ->
     e = ValueError /\
     (refused s second_text \/ refused m minute_text)).
Proof.
  intros second_text minute_text taken refused.
  assert (Htaken : forall arg text limit,
             taken arg text limit ->
             py_or arg (call_int int text) = Ok limit).
  { intros arg text limit [[-> Hn] | [Hfalsy Hint]].
    - now apply py_or_truthy.
    - rewrite (py_or_falsy arg _ Hfalsy). unfold call_int. now rewrite Hint. }
  assert (Hrefused : forall arg text,
             refused arg text ->
             py_or arg (call_int int text) = Raise ValueError).
  { intros arg text [Hfalsy Hint].
    rewrite (py_or_falsy arg _ Hfalsy). unfold call_int. now rewrite Hint. }
  assert (Hcases : forall arg text,
             (exists limit, taken arg text limit) \/ refused arg text).
  { intros arg text.
    destruct (py_or_limit int arg text)
      as [[n [Ha [Hn _]]] | [Hfalsy [[n [Hint _]] | [Hint _]]]].
    - left. exists n. left. now split.
    - left. exists n. right. now split.
    - right. now split. }
  split; [|split; [|split]].
  - intros ps pm Hs Hm. apply init_ok; now apply Htaken.
  - intros self Hinit.
    destruct (Hcases s second_text) as [[ps Hs] | Hs].
    + destruct (Hcases m minute_text) as [[pm Hm] | Hm].
      * exists ps, pm. split; [exact Hs|]. split; [exact Hm|].
        rewrite (init_ok int s m env ps pm (Htaken _ _ _ Hs) (Htaken _ _ _ Hm))
          in Hinit.
        now injection Hinit as <-.
      * unfold init in Hinit. fold second_text minute_text in Hinit.
        rewrite (Htaken _ _ _ Hs), (Hrefused _ _ Hm) in Hinit. discriminate.
    + unfold init in Hinit. fold second_text in Hinit.
      rewrite (Hrefused _ _ Hs) in Hinit. discriminate.
  - intros Hr. unfold init. fold second_text minute_text.
    destruct (Hcases s second_text) as [[ps Hs] | Hs].
    + destruct Hr as [[Hfalsy Hint] | Hm].
      * destruct Hs as [[-> Hn] | [_ Hint']].
        -- destruct Hfalsy as [Hf | Hf]; [discriminate|].
           injection Hf as ->. contradiction.
        -- rewrite Hint in Hint'. discriminate.
      * now rewrite (Htaken _ _ _ Hs), (Hrefused _ _ Hm).
    + now rewrite (Hrefused _ _ Hs).
  - intros e Hinit. unfold init in Hinit.
    fold second_text minute_text in Hinit.
    destruct (Hcases s second_text) as [[ps Hs] | Hs].
    + rewrite (Htaken _ _ _ Hs) in Hinit.
      destruct (Hcases m minute_text) as [[pm Hm] | Hm].
      * rewrite (Htaken _ _ _ Hm) in Hinit. discriminate.
      * rewrite (Hrefused _ _ Hm) in Hinit. simpl in Hinit.
        injection Hinit as <-. split; [reflexivity | now right].
    + rewrite (Hrefused _ _ Hs) in Hinit. simpl in Hinit.
      injection Hinit as <-. split; [reflexivity | now left].
Qed.

Lemma init_rejects_no_limit_witness :
  let env : environ := fun key =>
    if String.eqb key "RATE_LIMIT_MESSAGES_PER_MINUTE" then Some "-60"%string
    else None in
  init PyInt.int (Some (-1)) (Some 0) env
  = Ok (mkRateLimiter (-1) (-60) [] [] false).
Proof.
  intros env.
  apply (proj1 (init_rejects_no_limit PyInt.int (Some (-1)) (Some 0) env)).
  - left. split; [reflexivity | discriminate].
  - right. split; [now right | reflexivity].
Defined.

(** A text that [int] does not read is the one thing that stops the
    construction. *)
Example unread_text_raises :
  let env : environ := fun key =>
    if String.eqb key "RATE_LIMIT_MESSAGES_PER_SECOND"
    then Some (String (ascii_of_nat 28) "0")
    else None in
  init PyInt.int (Some 0) (Some 5) env = Raise ValueError /\
  init PyInt.int (Some 3) (Some 5) env = Ok (mkRateLimiter 3 5 [] [] false).
Proof. split; reflexivity. Qed.

(** What such an instance does: with a limit of zero or below, the empty
    windows count as full and the first pass of [acquire] reads the head of
    an empty window. *)
Lemma acquire_faults_without_limit (per_second per_minute : Z) (now : Q) :
  per_second <= 0 \/ per_minute <= 0 ->
  acquire_attempt now (new per_second per_minute)
  = Raised IndexError (new per_second per_minute).
Proof.
  intros Hle. unfold acquire_attempt, new. simpl.
  unfold len. simpl.
  destruct (0 <? per_second) eqn:Es; destruct (0 <? per_minute) eqn:Em;
    simpl; try reflexivity.
  apply Z.ltb_lt in Es. apply Z.ltb_lt in Em. lia.
Qed.

(** ** The lock *)

Lemma acquire_attempt_releases (now : Q) (self : RateLimiter) :
  _lock self = false -> _lock (after (acquire_attempt now self)) = false.
Proof.
  intros Hfree. rewrite (acquire_attempt_unfold now self Hfree). cbv zeta.
  destruct (per_second_ok now self && per_minute_ok now self);
    [exact Hfree|].
  destruct (calculate_wait _ _ _ _); exact Hfree.
Qed.

Lemma step_lock_free (o : op) (now : Q) (self : RateLimiter) :
  _lock self = false -> _lock (step o now self) = false.
Proof.
  intros Hfree. destruct o as [|q]; simpl.
  - now apply acquire_attempt_releases.
  - now rewrite count_state.
Qed.

Lemma run_lock_free (tr : list (op * Q)) (self : RateLimiter) :
  _lock self = false -> _lock (run tr self) = false.
Proof.
  revert self. induction tr as [|[o now] tr IH]; intros self Hfree;
    [exact Hfree|].
  simpl. apply IH. now apply step_lock_free.
Qed.

Lemma count_set_lock (q : query) (now : Q) (held : bool)
    (self : RateLimiter) :
  count q now (set_lock held self)
  = (fst (count q now self), set_lock held (snd (count q now self))).
Proof. destruct q; reflexivity. Qed.

(** C8 as stated fails: with the lock held (a pass of [acquire] under way), a
    guarded read would wait, but the count property trims and reads the
    windows at once and never touches the lock. *)
Lemma count_reads_while_locked :
  let self := set_lock true (set_windows [5%Q] [5%Q] (new 10 100)) in
  guarded_count SecondCount 7 self = Waits /\
  current_second_count 7 self
  = (0, set_lock true (set_windows [] [5%Q] (new 10 100))) /\
  guarded_count MinuteCount 7 self = Waits /\
  current_minute_count 7 self
  = (1, set_lock true (set_windows [] [5%Q] (new 10 100))).
Proof. repeat split. Qed.

(** C8, as amended: the count properties neither test nor take the lock:
    they return the same count and trim the same way whether it is held or
    free, and leave it as it was.  They have no suspension point, and every
    pass of [acquire] releases the lock before it suspends or returns; so in
    every execution the lock is free whenever a count property runs, and the
    property returns what a read under the lock would return: it never sees a
    window between the steps of a pass. *)
Theorem count_needs_no_lock :
  (forall (q : query) (now : Q) (held : bool) (self : RateLimiter),
     fst (count q now (set_lock held self)) = fst (count q now self) /\
     snd (count q now (set_lock held self))
       = set_lock held (snd (count q now self)) /\
     _lock (snd (count q now self)) = _lock self) /\
  (forall (per_second per_minute : Z) (tr : list (op * Q)),
     _lock (run tr (new per_second per_minute)) = false) /\
  (forall (per_second per_minute : Z) (tr : list (op * Q)) (q : query)
          (now : Q),
     guarded_count q now (run tr (new per_second per_minute))
     = Done (count q now (run tr (new per_second per_minute)))).
Proof.
  split; [|split].
  - intros q now held self. rewrite count_set_lock. simpl.
    repeat split. now rewrite count_state.
  - intros ps pm tr. now apply run_lock_free.
  - intros ps pm tr q now.
    assert (Hfree : _lock (run tr (new ps pm)) = false)
      by now apply run_lock_free.
    unfold guarded_count. rewrite Hfree.
    rewrite count_set_lock.
    destruct (count q now (run tr (new ps pm))) as [n self'] eqn:E.
    simpl. f_equal. f_equal.
    assert (Hs : _lock self' = false).
    { replace self' with (snd (count q now (run tr (new ps pm))))
        by now rewrite E.
      now rewrite count_state. }
    destruct self' as [a b c d lk]. simpl in Hs. subst lk. reflexivity.
Qed.

(** ** The second window inside the minute window *)

Lemma popleft_while_is_suffix (horizon : Q) (w : list Q) :
  exists evicted, w = evicted ++ popleft_while horizon w.
Proof.
  destruct (popleft_while_split horizon w) as [ev [H _]]. now exists ev.
Qed.

(** The earlier horizon evicts no more than the later one. *)
Lemma popleft_while_nested (early late : Q) (older w : list Q) :
  (early <= late)%Q ->
  exists older',
    popleft_while early (older ++ w) = older' ++ popleft_while late w.
Proof.
  intros Hle. induction older as [|a older IH]; simpl.
  - induction w as [|t w IHw]; simpl.
    + now exists [].
    + destruct (Qle_bool t early) eqn:E.
      * assert (E' : Qle_bool t late = true).
        { apply Qle_bool_iff. apply Qle_bool_iff in E. lra. }
        rewrite E'. exact IHw.
      * destruct (popleft_while_is_suffix late (t :: w)) as [ev Hev].
        simpl in Hev. exists ev. exact Hev.
  - destruct (Qle_bool a early); [exact IH|].
    destruct (popleft_while_is_suffix late w) as [ev Hev].
    exists (a :: older ++ ev). simpl. rewrite <- app_assoc. now rewrite <- Hev.
Qed.

Lemma _clean_windows_nested (now : Q) (self : RateLimiter) :
  nested self -> nested (_clean_windows now self).
Proof.
  intros [older H]. unfold nested. simpl. rewrite H.
  apply popleft_while_nested. lra.
Qed.

Lemma step_nested (o : op) (now : Q) (self : RateLimiter) :
  nested self -> nested (step o now self).
Proof.
  intros Hn. destruct o as [|q]; simpl.
  - destruct (_lock self) eqn:Hlock.
    + unfold acquire_attempt. rewrite Hlock. exact Hn.
    + rewrite (acquire_attempt_unfold now self Hlock). cbv zeta.
      pose proof (_clean_windows_nested now self Hn) as [older H].
      destruct (per_second_ok now self && per_minute_ok now self).
      * exists older. simpl. simpl in H. rewrite H. now rewrite app_assoc.
      * destruct (calculate_wait _ _ _ _); now exists older.
  - rewrite count_state. now apply _clean_windows_nested.
Qed.

Lemma run_nested (tr : list (op * Q)) (self : RateLimiter) :
  nested self -> nested (run tr self).
Proof.
  revert self. induction tr as [|[o now] tr IH]; intros self Hn;
    [exact Hn|].
  simpl. apply IH. now apply step_nested.
Qed.

(** C5: after every operation of every execution, whatever the clock reads,
    each timestamp of the second window is in the minute window; indeed the
    second window is the tail end of the minute window. *)
Theorem second_window_in_minute_window (per_second per_minute : Z)
    (tr : list (op * Q)) :
  let self := run tr (new per_second per_minute) in
  (forall t, In t (_second_window self) -> In t (_minute_window self)) /\
  nested self.
Proof.
  intros self.
  assert (Hn : nested self).
  { apply run_nested. now exists []. }
  split; [|exact Hn].
  destruct Hn as [older H]. intros t Hin. rewrite H.
  apply in_or_app. now right.
Qed.

(** An execution with grants, waits, evictions and queries. *)
Example nested_run :
  let self := run [(Acquire, 0%Q); (Acquire, 0.5%Q); (Acquire, 0.75%Q);
                   (Count SecondCount, 1.25%Q); (Acquire, 1.25%Q);
                   (Count MinuteCount, 60.5%Q)] (new 2 100) in
  _second_window self = [] /\ _minute_window self = [1.25%Q].
Proof. split; reflexivity. Qed.

(** ** Capacity *)

Lemma ascending_snoc (g : list Q) (now : Q) :
  ascending g = true -> Forall (fun u => (u <= now)%Q) g ->
  ascending (g ++ [now]) = true.
Proof.
  induction g as [|a g IH]; intros Hasc Hall; [reflexivity|].
  destruct (ascending_cons a g Hasc) as [_ Hg].
  inversion Hall as [|? ? Ha Hg']; subst.
  specialize (IH Hg Hg').
  destruct g as [|b g]; simpl.
  - rewrite andb_true_r. now apply Qle_bool_iff.
  - simpl in Hasc. apply andb_true_iff in Hasc. destruct Hasc as [Hab _].
    rewrite Hab. exact IH.
Qed.

Lemma filter_newer_all (horizon bound : Q) (w : list Q) :
  (horizon < bound)%Q -> Forall (fun u => (bound <= u)%Q) w ->
  filter (newer horizon) w = w.
Proof.
  intros Hlt Hall. apply filter_keeps_all.
  eapply Forall_impl; [|exact Hall].
  simpl. intros u Hu. apply newer_lt. lra.
Qed.

(** Trimming the record kept at an earlier instant gives the record at the
    later instant. *)
Lemma popleft_while_record (early late : Q) (g : list Q) :
  ascending g = true -> (early <= late)%Q ->
  popleft_while late (filter (newer early) g) = filter (newer late) g.
Proof.
  intros Hasc Hle. induction g as [|a g IH]; [reflexivity|].
  destruct (ascending_cons a g Hasc) as [Hall Hg].
  specialize (IH Hg). simpl.
  destruct (newer early a) eqn:Ee; destruct (newer late a) eqn:El.
  - apply newer_lt in Ee. simpl.
    unfold newer in El. apply negb_true_iff in El. rewrite El.
    apply newer_lt in Ee.
    assert (Hlate : (late < a)%Q).
    { apply Qnot_le_lt. intros H. apply Qle_bool_iff in H. congruence. }
    now rewrite (filter_newer_all early a g), (filter_newer_all late a g)
      by (assumption || lra).
  - simpl. unfold newer in El. apply negb_false_iff in El. now rewrite El.
  - apply newer_lt in El.
    assert (He : ~ (early < a)%Q).
    { intros H. apply newer_lt in H. congruence. }
    lra.
  - exact IH.
Qed.

Lemma len_snoc (w : list Q) (now : Q) : len (w ++ [now]) = len w + 1.
Proof. unfold len. rewrite length_app. simpl. lia. Qed.

Lemma filter_snoc_newer (span now : Q) (g : list Q) :
  (0 < span)%Q ->
  filter (newer (now - span)) (g ++ [now])
  = filter (newer (now - span)) g ++ [now].
Proof.
  intros Hspan. rewrite filter_app. simpl.
  assert (E : newer (now - span) now = true) by (apply newer_lt; lra).
  now rewrite E.
Qed.

Lemma _clean_windows_tracks (t now : Q) (g : list Q) (self : RateLimiter) :
  tracks t g self -> (t <= now)%Q -> tracks now g (_clean_windows now self).
Proof.
  intros [Hasc [Hall [Hs [Hm [Hls [Hlm Hfree]]]]]] Hle.
  unfold tracks. simpl.
  split; [exact Hasc|].
  split; [eapply Forall_impl; [|exact Hall]; simpl; intros; lra|].
  rewrite Hs at 1. rewrite Hm at 1.
  rewrite !popleft_while_record by (assumption || lra).
  split; [reflexivity|]. split; [reflexivity|].
  split; [|split; [|exact Hfree]].
  - pose proof (popleft_while_len (now - 1) (_second_window self)). lia.
  - pose proof (popleft_while_len (now - 60) (_minute_window self)). lia.
Qed.

Lemma step_tracks (o : op) (t now : Q) (g : list Q) (self : RateLimiter) :
  tracks t g self -> (t <= now)%Q ->
  tracks now (g ++ if granting o now self then [now] else [])
    (step o now self).
Proof.
  intros Htr Hle.
  pose proof (_clean_windows_tracks t now g self Htr Hle) as Hclean.
  destruct o as [|q]; simpl.
  - assert (Hfree : _lock self = false) by apply Htr.
    rewrite (acquire_attempt_unfold now self Hfree). cbv zeta.
    destruct (per_second_ok now self && per_minute_ok now self) eqn:Eok.
    + apply andb_true_iff in Eok. destruct Eok as [Es Em].
      unfold per_second_ok in Es. unfold per_minute_ok in Em.
      apply Z.ltb_lt in Es. apply Z.ltb_lt in Em.
      destruct Hclean as [Hasc [Hall [Hs [Hm _]]]].
      unfold tracks. simpl after.
      split; [now apply ascending_snoc|].
      split.
      { apply Forall_app. split; [exact Hall|].
        constructor; [lra | constructor]. }
      rewrite !filter_snoc_newer by lra.
      cbn [_second_window _minute_window set_windows messages_per_second
           messages_per_minute _lock].
      rewrite !len_snoc.
      split; [now rewrite <- Hs|]. split; [now rewrite <- Hm|].
      change (_second_window (_clean_windows now self))
        with (popleft_while (now - 1) (_second_window self)) in Es.
      change (_minute_window (_clean_windows now self))
        with (popleft_while (now - 60) (_minute_window self)) in Em.
      split; [lia|]. split; [lia | exact Hfree].
    + destruct (calculate_wait _ _ _ _); cbn [after]; rewrite app_nil_r;
        exact Hclean.
  - rewrite app_nil_r, count_state. exact Hclean.
Qed.

Lemma last_cons (a d : Q) (l : list Q) : last (a :: l) d = last l a.
Proof.
  revert a d. induction l as [|b l IH]; intros a d; [reflexivity|].
  change (last (a :: b :: l) d) with (last (b :: l) d).
  now rewrite !IH.
Qed.

Lemma run_tracks (tr : list (op * Q)) (t : Q) (g : list Q)
    (self : RateLimiter) :
  tracks t g self -> ascending (t :: map snd tr) = true ->
  tracks (last (map snd tr) t) (g ++ grants tr self) (run tr self).
Proof.
  revert t g self.
  induction tr as [|[o now] tr IH]; intros t g self Htr Hasc.
  - simpl. now rewrite app_nil_r.
  - simpl map in *. simpl run. simpl grants.
    rewrite last_cons, app_assoc.
    change (Qle_bool t now && ascending (now :: map snd tr) = true) in Hasc.
    apply andb_true_iff in Hasc. destruct Hasc as [Hle Hasc].
    apply Qle_bool_iff in Hle.
    apply IH; [|exact Hasc].
    exact (step_tracks o t now g self Htr Hle).
Qed.

Lemma last_snoc (l : list Q) (a d : Q) : last (l ++ [a]) d = a.
Proof. apply last_last. Qed.

Lemma granted_below_caps (now : Q) (self granted : RateLimiter) :
  acquire_attempt now self = Granted granted ->
  per_second_ok now self = true /\ per_minute_ok now self = true.
Proof.
  destruct (_lock self) eqn:Hlock.
  - unfold acquire_attempt. rewrite Hlock. discriminate.
  - rewrite (acquire_attempt_unfold now self Hlock). cbv zeta.
    destruct (per_second_ok now self); destruct (per_minute_ok now self);
      simpl; try (destruct (calculate_wait _ _ _ _); discriminate).
    now split.
Qed.

Lemma step_limits (o : op) (now : Q) (self : RateLimiter) :
  messages_per_second (step o now self) = messages_per_second self /\
  messages_per_minute (step o now self) = messages_per_minute self.
Proof.
  destruct o as [|q]; simpl.
  - unfold acquire_attempt. destruct (_lock self); [now split|].
    match goal with
    | |- context [if ?b then _ else _] => destruct b
    end; [now split|].
    destruct (calculate_wait _ _ _ _); now split.
  - rewrite count_state. now split.
Qed.

Lemma run_limits (tr : list (op * Q)) (self : RateLimiter) :
  messages_per_second (run tr self) = messages_per_second self /\
  messages_per_minute (run tr self) = messages_per_minute self.
Proof.
  revert self. induction tr as [|[o now] tr IH]; intros self; [now split|].
  simpl. destruct (IH (step o now self)) as [-> ->]. apply step_limits.
Qed.

Lemma step_bounded (o : op) (now : Q) (self : RateLimiter) :
  len (_second_window self) <= messages_per_second self ->
  len (_minute_window self) <= messages_per_minute self ->
  len (_second_window (step o now self)) <= messages_per_second self /\
  len (_minute_window (step o now self)) <= messages_per_minute self.
Proof.
  intros Hs Hm.
  pose proof (popleft_while_len (now - 1) (_second_window self)) as Hts.
  pose proof (popleft_while_len (now - 60) (_minute_window self)) as Htm.
  assert (Htrim :
    len (_second_window (_clean_windows now self)) <= messages_per_second self
    /\ len (_minute_window (_clean_windows now self))
       <= messages_per_minute self) by (simpl; lia).
  destruct o as [|q]; simpl step.
  - destruct (_lock self) eqn:Hlock.
    + unfold acquire_attempt. rewrite Hlock. simpl. lia.
    + rewrite (acquire_attempt_unfold now self Hlock). cbv zeta.
      destruct (per_second_ok now self && per_minute_ok now self) eqn:Eok.
      * apply andb_true_iff in Eok. destruct Eok as [Es Em].
        apply Z.ltb_lt in Es. apply Z.ltb_lt in Em.
        cbn [after _second_window _minute_window set_windows].
        rewrite !len_snoc. lia.
      * destruct (calculate_wait _ _ _ _); exact Htrim.
  - rewrite count_state. exact Htrim.
Qed.

Lemma run_bounded (tr : list (op * Q)) (self : RateLimiter) :
  len (_second_window self) <= messages_per_second self ->
  len (_minute_window self) <= messages_per_minute self ->
  len (_second_window (run tr self)) <= messages_per_second self /\
  len (_minute_window (run tr self)) <= messages_per_minute self.
Proof.
  revert self. induction tr as [|[o now] tr IH]; intros self Hs Hm;
    [now split|].
  simpl. destruct (step_limits o now self) as [Els Elm].
  destruct (step_bounded o now self Hs Hm) as [Hs' Hm'].
  rewrite <- Els, <- Elm. rewrite <- Els in Hs'. rewrite <- Elm in Hm'.
  now apply IH.
Qed.

(** Later horizons leave fewer grants in the window. *)
Lemma filter_newer_len (early late : Q) (g : list Q) :
  (early <= late)%Q ->
  len (filter (newer late) g) <= len (filter (newer early) g).
Proof.
  intros Hle. unfold len. induction g as [|a g IH]; simpl; [lia|].
  destruct (newer late a) eqn:El.
  - apply newer_lt in El.
    assert (Ee : newer early a = true) by (apply newer_lt; lra).
    rewrite Ee. simpl List.length. lia.
  - destruct (newer early a); simpl List.length; lia.
Qed.

(** C1: take a limiter with positive limits.  After each operation of any
    execution (a pass of [acquire] or a count property) the second window
    holds at most [messages_per_second] timestamps and the minute window at
    most [messages_per_minute].  When the clock is monotonic, the second
    window after an operation at clock value [now] is exactly the grants made
    so far whose timestamp lies in the trailing second ([now - 1 < t <= now])
    and the minute window exactly those of the trailing 60 seconds; so at
    that and at any later instant the grants of the trailing second are at
    most [messages_per_second] and those of the trailing 60 seconds at most
    [messages_per_minute].  A pass grants only when both trimmed windows are
    strictly below their caps. *)
Theorem capacity_invariant (per_second per_minute : Z) (tr : list (op * Q))
    (o : op) (now : Q) :
  1 <= per_second ->
  1 <= per_minute ->
  let self := run (tr ++ [(o, now)]) (new per_second per_minute) in
  let g := grants (tr ++ [(o, now)]) (new per_second per_minute) in
  (len (_second_window self) <= per_second /\
   len (_minute_window self) <= per_minute) /\
  (ascending (map snd (tr ++ [(o, now)])) = true ->
   _second_window self = filter (newer (now - 1)) g /\
   _minute_window self = filter (newer (now - 60)) g /\
   Forall (fun t => (t <= now)%Q) g /\
   forall instant : Q,
     (now <= instant)%Q ->
     len (filter (newer (instant - 1)) g) <= per_second /\
     len (filter (newer (instant - 60)) g) <= per_minute) /\
  (forall (at_time : Q) (before granted : RateLimiter),
     acquire_attempt at_time before = Granted granted ->
     len (_second_window (_clean_windows at_time before))
       < messages_per_second before /\
     len (_minute_window (_clean_windows at_time before))
       < messages_per_minute before).
Proof.
  intros Hps Hpm self g.
  assert (Hbound : len (_second_window self) <= per_second /\
                   len (_minute_window self) <= per_minute).
  { apply (run_bounded (tr ++ [(o, now)]) (new per_second per_minute));
      unfold len; simpl; lia. }
  split; [exact Hbound|]. split.
  - intros Hasc.
    set (first := hd now (map snd (tr ++ [(o, now)]))).
    assert (Hstart : tracks first [] (new per_second per_minute)).
    { unfold tracks, new, len. simpl. repeat split; try constructor; lia. }
    assert (Hfrom : ascending (first :: map snd (tr ++ [(o, now)])) = true).
    { unfold first. destruct (map snd (tr ++ [(o, now)])) as [|a l] eqn:E.
      - reflexivity.
      - change (Qle_bool a a && ascending (a :: l) = true).
        rewrite Hasc, andb_true_r. apply Qle_bool_iff. lra. }
    pose proof (run_tracks _ _ _ _ Hstart Hfrom) as Htr.
    rewrite map_app in Htr. simpl map in Htr. rewrite last_snoc in Htr.
    simpl app in Htr. fold self in Htr. fold g in Htr.
    destruct Htr as [_ [Hall [Hs [Hm _]]]].
    split; [exact Hs|]. split; [exact Hm|]. split; [exact Hall|].
    intros instant Hlater. destruct Hbound as [Hls Hlm].
    rewrite Hs in Hls. rewrite Hm in Hlm.
    pose proof (filter_newer_len (now - 1) (instant - 1) g) as H1.
    pose proof (filter_newer_len (now - 60) (instant - 60) g) as H60.
    split; [apply Z.le_trans with (2 := Hls); apply H1; lra
           | apply Z.le_trans with (2 := Hlm); apply H60; lra].
  - intros at_time before granted Hadm.
    destruct (granted_below_caps _ _ _ Hadm) as [Es Em].
    split; now apply Z.ltb_lt.
Qed.

Lemma capacity_invariant_witness :
  let tr := [(Acquire, 0%Q); (Acquire, 0.5%Q); (Acquire, 0.75%Q);
             (Count SecondCount, 1.25%Q)] in
  grants (tr ++ [(Acquire, 1.25%Q)]) (new 2 100) = [0%Q; 0.5%Q; 1.25%Q] /\
  _second_window (run (tr ++ [(Acquire, 1.25%Q)]) (new 2 100))
  = filter (newer (1.25 - 1)) (grants (tr ++ [(Acquire, 1.25%Q)]) (new 2 100))
  /\
  len (_second_window (run (tr ++ [(Acquire, 1.25%Q)]) (new 2 100))) <= 2.
Proof.
  intros tr.
  destruct (capacity_invariant 2 100 tr Acquire 1.25%Q)
    as [[Hl _] [Hclock _]]; [lia | lia |].
  destruct (Hclock eq_refl) as [Hs _].
  split; [reflexivity|]. split; [exact Hs | exact Hl].
Defined.

(** ** A caller alone is served once the oldest entry has left *)

Lemma window_free_when_due (span later : Q) (limit : Z) (w : list Q) :
  1 <= limit -> len w <= limit ->
  (forall h, (len w <? limit) = false -> head w = Ok h ->
             (h + span <= later)%Q) ->
  len (popleft_while (later - span) w) < limit.
Proof.
  intros Hlimit Hlen Hdue.
  destruct (len w <? limit) eqn:Efull.
  - apply Z.ltb_lt in Efull.
    pose proof (popleft_while_len (later - span) w). lia.
  - destruct w as [|h rest].
    + apply Z.ltb_ge in Efull. unfold len in *. simpl in *. lia.
    + specialize (Hdue h eq_refl eq_refl).
      assert (Hev : Qle_bool h (later - span) = true)
        by (apply Qle_bool_iff; lra).
      simpl. rewrite Hev.
      pose proof (popleft_while_len (later - span) rest) as Hrest.
      unfold len in *. simpl List.length in *. lia.
Qed.

Lemma window_full_when_early (span later : Q) (limit : Z) (w : list Q)
    (h : Q) :
  (len w <? limit) = false -> head w = Ok h -> (later < h + span)%Q ->
  (len (popleft_while (later - span) w) <? limit) = false.
Proof.
  intros Hfull Hhead Hearly. destruct w as [|t rest]; [discriminate|].
  injection Hhead as ->.
  assert (Hkeep : Qle_bool h (later - span) = false).
  { destruct (Qle_bool h (later - span)) eqn:E; [|reflexivity].
    apply Qle_bool_iff in E. lra. }
  simpl. now rewrite Hkeep.
Qed.

Lemma served_when_due (now later wait : Q) (self slept : RateLimiter) :
  1 <= messages_per_second self ->
  1 <= messages_per_minute self ->
  len (_second_window self) <= messages_per_second self ->
  len (_minute_window self) <= messages_per_minute self ->
  acquire_attempt now self = Sleeping wait slept ->
  (forall h, per_second_ok now self = false ->
             head (_second_window slept) = Ok h -> (h + 1 <= later)%Q) ->
  (forall h, per_minute_ok now self = false ->
             head (_minute_window slept) = Ok h -> (h + 60 <= later)%Q) ->
  exists served,
    acquire_attempt later slept = Granted served /\
    acquire [now; later] self = Returned [wait] served.
Proof.
  intros Hps Hpm Hls Hlm Hsleep Hsecond Hminute.
  destruct (sleeping_trimmed now wait self slept Hsleep) as [Hfree Hslept].
  assert (Hfree' : _lock slept = false) by (now rewrite Hslept).
  unfold per_second_ok in Hsecond. unfold per_minute_ok in Hminute.
  rewrite <- Hslept in Hsecond, Hminute.
  assert (Hls' : len (_second_window slept) <= messages_per_second self).
  { rewrite Hslept. simpl.
    pose proof (popleft_while_len (now - 1) (_second_window self)). lia. }
  assert (Hlm' : len (_minute_window slept) <= messages_per_minute self).
  { rewrite Hslept. simpl.
    pose proof (popleft_while_len (now - 60) (_minute_window self)). lia. }
  assert (Eps : messages_per_second slept = messages_per_second self)
    by (now rewrite Hslept).
  assert (Epm : messages_per_minute slept = messages_per_minute self)
    by (now rewrite Hslept).
  assert (Es : len (_second_window (_clean_windows later slept))
               < messages_per_second slept).
  { rewrite Eps.
    now apply (window_free_when_due 1 later (messages_per_second self)). }
  assert (Em : len (_minute_window (_clean_windows later slept))
               < messages_per_minute slept).
  { rewrite Epm.
    now apply (window_free_when_due 60 later (messages_per_minute self)). }
  pose proof (attempt_below_caps later slept Hfree' Es Em) as Hgrant.
  eexists. split; [exact Hgrant|].
  unfold acquire. simpl. now rewrite Hsleep, Hgrant.
Qed.

Lemma sleeps_again_when_early (now later wait : Q)
    (self slept : RateLimiter) :
  1 <= messages_per_second self ->
  1 <= messages_per_minute self ->
  acquire_attempt now self = Sleeping wait slept ->
  (exists h, per_second_ok now self = false /\
             head (_second_window slept) = Ok h /\ (later < h + 1)%Q) \/
  (exists h, per_minute_ok now self = false /\
             head (_minute_window slept) = Ok h /\ (later < h + 60)%Q) ->
  exists wait', acquire_attempt later slept
                = Sleeping wait' (_clean_windows later slept).
Proof.
  intros Hps Hpm Hsleep Hearly.
  destruct (sleeping_trimmed now wait self slept Hsleep) as [Hfree Hslept].
  assert (Hfree' : _lock slept = false) by (now rewrite Hslept).
  assert (Eps : messages_per_second slept = messages_per_second self)
    by (now rewrite Hslept).
  assert (Epm : messages_per_minute slept = messages_per_minute self)
    by (now rewrite Hslept).
  unfold per_second_ok, per_minute_ok in Hearly.
  rewrite <- Hslept in Hearly.
  assert (Hfull : messages_per_second slept
                    <= len (_second_window (_clean_windows later slept)) \/
                  messages_per_minute slept
                    <= len (_minute_window (_clean_windows later slept))).
  { destruct Hearly as [[h [Hf [Hh Hlt]]] | [h [Hf [Hh Hlt]]]].
    - left. rewrite Eps. apply Z.ltb_ge.
      exact (window_full_when_early 1 later _ _ h Hf Hh Hlt).
    - right. rewrite Epm. apply Z.ltb_ge.
      exact (window_full_when_early 60 later _ _ h Hf Hh Hlt). }
  destruct (full_window_pass later slept Hfree' Hfull)
    as [Hw | [_ [[Hle _] | [Hle _]]]]; [exact Hw | lia | lia].
Qed.

(** X1: a caller that nobody overtakes is served by the first pass that
    finds the oldest entry of every full window a whole span old.  On a
    limiter with positive limits whose windows are within them, when a pass at
    [now] sleeps and the next clock reading [later] is at least the oldest
    entry + 1 for a full second window and the oldest entry + 60 for a full
    minute window, the next pass grants and the call returns after that one
    sleep.  When [later] is short of one of them the next pass sleeps again.
    The statement is about the stamps and the readings, not about the wait:
    in double arithmetic the clock can read [now + wait] and still be short. *)
Theorem acquire_returns_after_wait (now later wait : Q)
    (self slept : RateLimiter) :
  1 <= messages_per_second self ->
  1 <= messages_per_minute self ->
  len (_second_window self) <= messages_per_second self ->
  len (_minute_window self) <= messages_per_minute self ->
  acquire_attempt now self = Sleeping wait slept ->
  ((forall h, per_second_ok now self = false ->
              head (_second_window slept) = Ok h -> (h + 1 <= later)%Q) ->
   (forall h, per_minute_ok now self = false ->
              head (_minute_window slept) = Ok h -> (h + 60 <= later)%Q) ->
   exists served,
     acquire_attempt later slept = Granted served /\
     acquire [now; later] self = Returned [wait] served) /\
  ((exists h, per_second_ok now self = false /\
              head (_second_window slept) = Ok h /\ (later < h + 1)%Q) \/
   (exists h, per_minute_ok now self = false /\
              head (_minute_window slept) = Ok h /\ (later < h + 60)%Q) ->
   exists wait', acquire_attempt later slept
                 = Sleeping wait' (_clean_windows later slept)).
Proof.
  intros Hps Hpm Hls Hlm Hsleep. split.
  - exact (served_when_due now later wait self slept Hps Hpm Hls Hlm Hsleep).
  - exact (sleeps_again_when_early now later wait self slept Hps Hpm Hsleep).
Qed.

Lemma acquire_returns_after_wait_witness :
  let self := set_windows [9.25%Q; 9.5%Q] [9.25%Q; 9.5%Q] (new 2 100) in
  exists served,
    acquire_attempt 10.25 self = Granted served /\
    acquire [10%Q; 10.25%Q] self = Returned [(1 # 4)%Q] served.
Proof.
  intros self.
  assert (Hsleep : acquire_attempt 10 self = Sleeping (1 # 4) self)
    by (vm_compute; reflexivity).
  refine (proj1 (acquire_returns_after_wait 10 10.25 (1 # 4) self self
                   _ _ _ _ Hsleep) _ _);
    try (unfold self, len; simpl; lia).
  - intros h _ Hh. injection Hh as <-. unfold Qle. simpl. lia.
  - intros h Hfull. vm_compute in Hfull. discriminate Hfull.
Defined.

(** In double arithmetic the computed wait can fall short.  The grant was
    stamped with the double nearest to 0.9 and the clock reads 1.0: the pass
    sleeps for 0.8999999999999999.  When the clock then reads the double
    nearest to 1.0 + that wait, the entry is still less than a second old:
    the next pass finds the window full and sleeps for 0.0. *)
Example short_sleep_is_repeated :
  let stamp := Binary64.round 0.9 in
  let self := set_windows [stamp] [stamp] (new 1 100) in
  let wait := (2026619832316723 # 2251799813685248)%Q in
  let later := Binary64.round (1 + wait) in
  acquire_attempt 1 self = Sleeping wait self /\
  (later < stamp + 1)%Q /\
  acquire_attempt later self = Sleeping 0 self.
Proof. repeat split; vm_compute; reflexivity. Qed.

(** * Further properties of the limiter *)

(** ** Trimming at a later instant *)

Lemma popleft_while_later (early late : Q) (w : list Q) :
  (early <= late)%Q ->
  popleft_while late (popleft_while early w) = popleft_while late w.
Proof.
  intros Hle. induction w as [|a w IH]; [reflexivity|].
  simpl. destruct (Qle_bool a early) eqn:E.
  - assert (E' : Qle_bool a late = true).
    { apply Qle_bool_iff. apply Qle_bool_iff in E. lra. }
    now rewrite E'.
  - reflexivity.
Qed.

Lemma _clean_windows_later (now later : Q) (self : RateLimiter) :
  (now <= later)%Q ->
  _clean_windows later (_clean_windows now self) = _clean_windows later self.
Proof.
  intros Hle. unfold _clean_windows, set_windows. simpl.
  now rewrite !popleft_while_later by lra.
Qed.

Lemma acquire_attempt_trimmed_earlier (now later : Q) (self : RateLimiter) :
  _lock self = false -> (now <= later)%Q ->
  acquire_attempt later (_clean_windows now self)
  = acquire_attempt later self.
Proof.
  intros Hfree Hle.
  rewrite <- (acquire_attempt_after_trim later (_clean_windows now self))
    by exact Hfree.
  rewrite _clean_windows_later by exact Hle.
  now apply acquire_attempt_after_trim.
Qed.

(** X7: eviction is lazy and loses nothing.  Trimming at [now] and then at a
    later instant leaves the limiter that trimming at the later instant alone
    leaves; so a count property read earlier changes neither the value of a
    later count property nor how a later pass of [acquire] ends. *)
Theorem earlier_trim_is_absorbed (q earlier : query) (now later : Q)
    (self : RateLimiter) :
  (now <= later)%Q ->
  _clean_windows later (_clean_windows now self) = _clean_windows later self /\
  count q later (snd (count earlier now self)) = count q later self /\
  (_lock self = false ->
   acquire_attempt later (snd (count earlier now self))
   = acquire_attempt later self).
Proof.
  intros Hle.
  pose proof (_clean_windows_later now later self Hle) as E.
  split; [exact E|]. rewrite count_state. split.
  - rewrite <- (count_after_trim q later (_clean_windows now self)).
    rewrite E. apply count_after_trim.
  - intros Hfree. now apply acquire_attempt_trimmed_earlier.
Qed.

Lemma earlier_trim_is_absorbed_witness :
  let self := set_windows [3%Q; 9.5%Q] [3%Q; 9.5%Q] (new 2 100) in
  count MinuteCount 70 (snd (count SecondCount 10 self))
  = count MinuteCount 70 self.
Proof.
  intros self.
  refine (proj1 (proj2
            (earlier_trim_is_absorbed MinuteCount SecondCount 10 70 self _))).
  unfold Qle. simpl. lia.
Defined.

(** ** Executions without their count properties *)

Lemma _clean_windows_lock (now : Q) (self : RateLimiter) :
  _lock (_clean_windows now self) = _lock self.
Proof. reflexivity. Qed.

Lemma acquire_attempt_same_trim (now : Q) (self other : RateLimiter) :
  _lock self = false ->
  _clean_windows now self = _clean_windows now other ->
  acquire_attempt now self = acquire_attempt now other.
Proof.
  intros Hfree E.
  assert (Hfree' : _lock other = false).
  { rewrite <- (_clean_windows_lock now other), <- E. exact Hfree. }
  rewrite <- (acquire_attempt_after_trim now self Hfree).
  rewrite <- (acquire_attempt_after_trim now other Hfree').
  now rewrite E.
Qed.

Lemma run_without_counts (tr : list (op * Q)) (t : Q)
    (self other : RateLimiter) :
  _lock self = false ->
  _clean_windows t self = _clean_windows t other ->
  ascending (t :: map snd tr) = true ->
  grants (acquires_only tr) other = grants tr self /\
  forall later,
    (last (map snd tr) t <= later)%Q ->
    _clean_windows later (run (acquires_only tr) other)
    = _clean_windows later (run tr self).
Proof.
  revert t self other.
  induction tr as [|[o now] tr IH]; intros t self other Hfree E Hasc.
  - split; [reflexivity|]. simpl. intros later Hle.
    rewrite <- (_clean_windows_later t later self Hle).
    rewrite <- (_clean_windows_later t later other Hle).
    now rewrite E.
  - simpl map in *.
    change (Qle_bool t now && ascending (now :: map snd tr) = true) in Hasc.
    apply andb_true_iff in Hasc. destruct Hasc as [Hle Hasc].
    apply Qle_bool_iff in Hle.
    assert (Enow : _clean_windows now self = _clean_windows now other).
    { rewrite <- (_clean_windows_later t now self Hle).
      rewrite <- (_clean_windows_later t now other Hle).
      now rewrite E. }
    rewrite last_cons.
    destruct o as [|q].
    + pose proof (acquire_attempt_same_trim now self other Hfree Enow) as Ea.
      change (acquires_only ((Acquire, now) :: tr))
        with ((Acquire, now) :: acquires_only tr).
      simpl grants. simpl run. unfold granting. rewrite <- Ea.
      destruct (IH now (after (acquire_attempt now self))
                  (after (acquire_attempt now self))) as [Hg Hr];
        [now apply acquire_attempt_releases | reflexivity | exact Hasc |].
      split; [now rewrite Hg | exact Hr].
    + change (acquires_only ((Count q, now) :: tr)) with (acquires_only tr).
      simpl grants. simpl run. rewrite count_state.
      apply (IH now); [exact Hfree | | exact Hasc].
      rewrite _clean_windows_fixed. exact Enow.
Qed.

Lemma last_bounded (l : list Q) (d later : Q) :
  (d <= later)%Q -> Forall (fun t => (t <= later)%Q) l ->
  (last l d <= later)%Q.
Proof.
  revert d. induction l as [|a l IH]; intros d Hd Hall; [exact Hd|].
  rewrite last_cons. inversion Hall; subst. now apply IH.
Qed.

(** X8: count properties are invisible to the callers of [acquire].  In an
    execution with a monotonic clock, leaving out every count property
    changes no grant (the same passes grant, at the same instants), and at
    any instant from the end of the execution on both limiters trim to the
    same windows. *)
Theorem counts_change_no_grant (per_second per_minute : Z)
    (tr : list (op * Q)) :
  ascending (map snd tr) = true ->
  grants (acquires_only tr) (new per_second per_minute)
  = grants tr (new per_second per_minute) /\
  forall later : Q,
    Forall (fun t => (t <= later)%Q) (map snd tr) ->
    _clean_windows later (run (acquires_only tr) (new per_second per_minute))
    = _clean_windows later (run tr (new per_second per_minute)).
Proof.
  intros Hasc. destruct tr as [|[o first] tr].
  - split; reflexivity.
  - assert (Hfrom : ascending (first :: map snd ((o, first) :: tr)) = true).
    { change (Qle_bool first first
                && ascending (map snd ((o, first) :: tr)) = true).
      rewrite Hasc, andb_true_r. apply Qle_bool_iff. lra. }
    destruct (run_without_counts ((o, first) :: tr) first
                (new per_second per_minute) (new per_second per_minute)
                eq_refl eq_refl Hfrom) as [Hg Hr].
    split; [exact Hg|].
    intros later Hall. apply Hr.
    apply last_bounded; [|exact Hall].
    simpl in Hall. now inversion Hall.
Qed.

Lemma counts_change_no_grant_witness :
  let tr := [(Acquire, 0%Q); (Count SecondCount, 0.25%Q); (Acquire, 0.5%Q);
             (Acquire, 0.75%Q); (Count MinuteCount, 1.25%Q);
             (Acquire, 1.25%Q)] in
  grants (acquires_only tr) (new 2 100) = grants tr (new 2 100) /\
  grants tr (new 2 100) = [0%Q; 0.5%Q; 1.25%Q].
Proof.
  intros tr. split; [|reflexivity].
  exact (proj1 (counts_change_no_grant 2 100 tr eq_refl)).
Defined.

(** ** A limiter that can never grant *)

Lemma step_without_limit (per_second per_minute : Z) (o : op) (now : Q) :
  per_second <= 0 \/ per_minute <= 0 ->
  step o now (new per_second per_minute) = new per_second per_minute /\
  granting o now (new per_second per_minute) = false.
Proof.
  intros Hle. destruct o as [|q]; simpl.
  - now rewrite (acquire_faults_without_limit _ _ now Hle).
  - rewrite count_state. now split.
Qed.

Lemma run_without_limit (per_second per_minute : Z) (tr : list (op * Q)) :
  per_second <= 0 \/ per_minute <= 0 ->
  run tr (new per_second per_minute) = new per_second per_minute /\
  grants tr (new per_second per_minute) = [].
Proof.
  intros Hle. induction tr as [|[o now] tr [IHr IHg]]; [now split|].
  destruct (step_without_limit _ _ o now Hle) as [Es Eg].
  simpl. now rewrite Es, Eg, IHr, IHg.
Qed.

(** X5: a limiter whose per-second or per-minute limit is zero or negative
    never grants.  Whatever has run before, its windows are still empty,
    every pass of [acquire] raises [IndexError] on the head of an empty
    window, and a call of [acquire] fails in its first pass instead of
    waiting. *)
Theorem nonpositive_limit_never_grants (per_second per_minute : Z)
    (tr : list (op * Q)) (now : Q) (later : list Q) :
  per_second <= 0 \/ per_minute <= 0 ->
  let self := run tr (new per_second per_minute) in
  grants tr (new per_second per_minute) = [] /\
  _second_window self = [] /\ _minute_window self = [] /\
  acquire_attempt now self = Raised IndexError self /\
  acquire (now :: later) self = Failed IndexError self.
Proof.
  intros Hle self.
  destruct (run_without_limit _ _ tr Hle) as [Er Eg].
  unfold self. rewrite Er.
  pose proof (acquire_faults_without_limit _ _ now Hle) as Ea.
  repeat split; try assumption.
  unfold acquire. simpl. now rewrite Ea.
Qed.

Lemma nonpositive_limit_never_grants_witness :
  acquire [7%Q; 8%Q]
    (run [(Acquire, 1%Q); (Count SecondCount, 2%Q); (Acquire, 3%Q)]
       (new 0 100))
  = Failed IndexError
      (run [(Acquire, 1%Q); (Count SecondCount, 2%Q); (Acquire, 3%Q)]
         (new 0 100)).
Proof.
  refine (proj2 (proj2 (proj2 (proj2
    (nonpositive_limit_never_grants 0 100
       [(Acquire, 1%Q); (Count SecondCount, 2%Q); (Acquire, 3%Q)]
       7 [8%Q] _))))).
  left. lia.
Defined.

(** ** Time order *)

Lemma ascending_popleft_while (horizon : Q) (w : list Q) :
  ascending w = true -> ascending (popleft_while horizon w) = true.
Proof.
  induction w as [|a w IH]; intros Hasc; [reflexivity|].
  simpl popleft_while. destruct (Qle_bool a horizon); [|exact Hasc].
  apply IH. now destruct (ascending_cons a w Hasc).
Qed.

Lemma tracks_from_new (per_second per_minute : Z) (tr : list (op * Q)) :
  1 <= per_second -> 1 <= per_minute ->
  ascending (map snd tr) = true ->
  exists t,
    tracks t (grants tr (new per_second per_minute))
      (run tr (new per_second per_minute)) /\
    Forall (fun u => (u <= t)%Q) (map snd tr).
Proof.
  intros Hps Hpm Hasc.
  set (first := hd 0%Q (map snd tr)).
  assert (Hstart : tracks first [] (new per_second per_minute)).
  { unfold tracks, new, len. simpl. repeat split; try constructor; lia. }
  assert (Hfrom : ascending (first :: map snd tr) = true).
  { unfold first. destruct (map snd tr) as [|a l] eqn:E; [reflexivity|].
    change (Qle_bool a a && ascending (a :: l) = true).
    rewrite Hasc, andb_true_r. apply Qle_bool_iff. lra. }
  exists (last (map snd tr) first).
  split; [exact (run_tracks _ _ _ _ Hstart Hfrom)|].
  clear Hstart. revert Hfrom. generalize first. clear.
  induction (map snd tr) as [|a l IH]; intros first Hasc; [constructor|].
  change (Qle_bool first a && ascending (a :: l) = true) in Hasc.
  apply andb_true_iff in Hasc. destruct Hasc as [_ Hasc].
  rewrite last_cons. specialize (IH a Hasc).
  constructor; [|exact IH].
  clear IH. revert a Hasc. induction l as [|b l IHl]; intros a Hasc.
  - simpl. lra.
  - change (Qle_bool a b && ascending (b :: l) = true) in Hasc.
    apply andb_true_iff in Hasc. destruct Hasc as [Hab Hasc].
    apply Qle_bool_iff in Hab. rewrite last_cons.
    specialize (IHl b Hasc). lra.
Qed.

(** X6: with a monotonic clock the limiter keeps its windows in time order,
    for any limits: after every execution the grants, the second window and
    the minute window are in non-decreasing order of timestamp, which is what
    lets [_clean_windows] stop at the first entry it keeps. *)
Theorem windows_stay_time_ordered (per_second per_minute : Z)
    (tr : list (op * Q)) :
  ascending (map snd tr) = true ->
  let self := run tr (new per_second per_minute) in
  ascending (grants tr (new per_second per_minute)) = true /\
  ascending (_second_window self) = true /\
  ascending (_minute_window self) = true.
Proof.
  intros Hasc self.
  destruct (Z_le_gt_dec per_second 0) as [Hs|Hs];
    [|destruct (Z_le_gt_dec per_minute 0) as [Hm|Hm]].
  - destruct (run_without_limit per_second per_minute tr (or_introl Hs))
      as [Er Eg].
    unfold self. rewrite Er, Eg. repeat split.
  - destruct (run_without_limit per_second per_minute tr (or_intror Hm))
      as [Er Eg].
    unfold self. rewrite Er, Eg. repeat split.
  - destruct (tracks_from_new per_second per_minute tr) as [t [Htr _]];
      [lia | lia | exact Hasc |].
    fold self in Htr. destruct Htr as [Hg [_ [Es [Em _]]]].
    split; [exact Hg|].
    rewrite Es, Em, <- !popleft_while_filter by exact Hg.
    split; now apply ascending_popleft_while.
Qed.

Lemma windows_stay_time_ordered_witness :
  ascending (_minute_window
               (run [(Acquire, 0%Q); (Acquire, 0.5%Q); (Acquire, 0.75%Q);
                     (Acquire, 1.25%Q)] (new 2 100))) = true.
Proof.
  exact (proj2 (proj2 (windows_stay_time_ordered 2 100
           [(Acquire, 0%Q); (Acquire, 0.5%Q); (Acquire, 0.75%Q);
            (Acquire, 1.25%Q)] eq_refl))).
Defined.

(** ** The rate of grants *)

Lemma newer_suffix_count (horizon : Q) (g : list Q) (i : nat) (a : Q) :
  ascending g = true -> nth_error g i = Some a -> newer horizon a = true ->
  (List.length g - i <= List.length (filter (newer horizon) g))%nat.
Proof.
  revert i. induction g as [|x g IH]; intros i Hasc Hnth Hnew.
  - simpl. lia.
  - destruct (ascending_cons x g Hasc) as [Hall Hg].
    destruct i as [|i]; simpl in Hnth.
    + injection Hnth as ->. apply newer_lt in Hnew.
      simpl filter.
      assert (Ea : newer horizon a = true) by now apply newer_lt.
      rewrite Ea, (filter_newer_all horizon a g) by assumption.
      simpl. lia.
    + specialize (IH i Hg Hnth Hnew). simpl filter.
      destruct (newer horizon x); simpl List.length; lia.
Qed.

Lemma spaced_snoc (span : Q) (n : nat) (g : list Q) (now : Q) :
  ascending g = true -> spaced span n g -> (0 < n)%nat ->
  (List.length (filter (newer (now - span)) g) < n)%nat ->
  spaced span n (g ++ [now]).
Proof.
  intros Hasc Hsp Hn Hroom i a b Ha Hb.
  destruct (Nat.lt_ge_cases (i + n) (List.length g)) as [Hin|Hout].
  - rewrite nth_error_app1 in Ha by lia.
    rewrite nth_error_app1 in Hb by lia.
    exact (Hsp i a b Ha Hb).
  - rewrite nth_error_app2 in Hb by lia.
    destruct (i + n - List.length g)%nat as [|k] eqn:Ek;
      [|destruct k; discriminate].
    simpl in Hb. injection Hb as <-.
    rewrite nth_error_app1 in Ha by lia.
    destruct (Qlt_le_dec (now - span) a) as [Hnew|Hold]; [|lra].
    apply newer_lt in Hnew.
    pose proof (newer_suffix_count _ g i a Hasc Ha Hnew). lia.
Qed.

Lemma step_spaced (o : op) (t now : Q) (g : list Q) (self : RateLimiter) :
  tracks t g self -> (t <= now)%Q ->
  1 <= messages_per_second self -> 1 <= messages_per_minute self ->
  spaced 1 (Z.to_nat (messages_per_second self)) g ->
  spaced 60 (Z.to_nat (messages_per_minute self)) g ->
  let g' := g ++ (if granting o now self then [now] else []) in
  spaced 1 (Z.to_nat (messages_per_second self)) g' /\
  spaced 60 (Z.to_nat (messages_per_minute self)) g'.
Proof.
  intros Htr Hle Hps Hpm Hs Hm g'. unfold g'.
  destruct (granting o now self) eqn:Eg; [|now rewrite app_nil_r].
  destruct o as [|q]; [|discriminate]. unfold granting in Eg.
  destruct (acquire_attempt now self) as [granted| | |] eqn:Ea;
    try discriminate.
  destruct (granted_below_caps _ _ _ Ea) as [Eos Eom].
  unfold per_second_ok in Eos. unfold per_minute_ok in Eom.
  apply Z.ltb_lt in Eos. apply Z.ltb_lt in Eom.
  destruct (_clean_windows_tracks t now g self Htr Hle)
    as [Hasc [_ [Es [Em _]]]].
  rewrite Es in Eos. rewrite Em in Eom. unfold len in Eos, Eom.
  split; apply spaced_snoc; try assumption; lia.
Qed.

Lemma run_spaced (tr : list (op * Q)) (t : Q) (g : list Q)
    (self : RateLimiter) :
  tracks t g self -> ascending (t :: map snd tr) = true ->
  1 <= messages_per_second self -> 1 <= messages_per_minute self ->
  spaced 1 (Z.to_nat (messages_per_second self)) g ->
  spaced 60 (Z.to_nat (messages_per_minute self)) g ->
  spaced 1 (Z.to_nat (messages_per_second self)) (g ++ grants tr self) /\
  spaced 60 (Z.to_nat (messages_per_minute self)) (g ++ grants tr self).
Proof.
  revert t g self.
  induction tr as [|[o now] tr IH]; intros t g self Htr Hasc Hps Hpm Hs Hm.
  - simpl. now rewrite app_nil_r.
  - simpl map in *. simpl grants. rewrite app_assoc.
    change (Qle_bool t now && ascending (now :: map snd tr) = true) in Hasc.
    apply andb_true_iff in Hasc. destruct Hasc as [Hle Hasc].
    apply Qle_bool_iff in Hle.
    destruct (step_spaced o t now g self Htr Hle Hps Hpm Hs Hm) as [Hs' Hm'].
    pose proof (step_tracks o t now g self Htr Hle) as Htr'.
    destruct (step_limits o now self) as [Els Elm].
    rewrite <- Els, <- Elm.
    apply (IH now); try assumption; rewrite ?Els, ?Elm; assumption.
Qed.

(** X2: the rate guarantee on the grants themselves.  With positive limits
    and a monotonic clock, the grant that comes [messages_per_second] grants
    after a grant is stamped at least one second later, and the one that
    comes [messages_per_minute] grants after it at least 60 seconds later:
    no [messages_per_second + 1] grants fall within less than a second, no
    [messages_per_minute + 1] within less than a minute. *)
Theorem grants_are_spaced (per_second per_minute : Z) (tr : list (op * Q)) :
  1 <= per_second -> 1 <= per_minute ->
  ascending (map snd tr) = true ->
  let g := grants tr (new per_second per_minute) in
  spaced 1 (Z.to_nat per_second) g /\ spaced 60 (Z.to_nat per_minute) g.
Proof.
  intros Hps Hpm Hasc g.
  set (first := hd 0%Q (map snd tr)).
  assert (Hstart : tracks first [] (new per_second per_minute)).
  { unfold tracks, new, len. simpl. repeat split; try constructor; lia. }
  assert (Hfrom : ascending (first :: map snd tr) = true).
  { unfold first. destruct (map snd tr) as [|a l] eqn:E; [reflexivity|].
    change (Qle_bool a a && ascending (a :: l) = true).
    rewrite Hasc, andb_true_r. apply Qle_bool_iff. lra. }
  assert (Hnil : forall span n, spaced span n []).
  { intros span n i a b Ha. destruct i; discriminate. }
  exact (run_spaced tr first [] (new per_second per_minute) Hstart Hfrom
           Hps Hpm (Hnil _ _) (Hnil _ _)).
Qed.

Lemma grants_are_spaced_witness :
  let tr := [(Acquire, 0%Q); (Acquire, 0.5%Q); (Acquire, 0.75%Q);
             (Acquire, 1%Q); (Acquire, 1.25%Q); (Acquire, 1.5%Q)] in
  grants tr (new 2 100) = [0%Q; 0.5%Q; 1%Q; 1.5%Q] /\
  Qle_bool (0.5 + 1) 1.5 = true.
Proof.
  intros tr. split; [reflexivity|].
  apply Qle_bool_iff.
  refine (proj1 (grants_are_spaced 2 100 tr _ _ eq_refl) 1%nat _ _ _ _);
    (lia || reflexivity).
Defined.

(** ** Bursts *)

Lemma grant_with_room (now : Q) (self : RateLimiter) :
  _lock self = false ->
  len (_second_window self) < messages_per_second self ->
  len (_minute_window self) < messages_per_minute self ->
  exists served,
    acquire_attempt now self = Granted served /\
    _lock served = false /\
    messages_per_second served = messages_per_second self /\
    messages_per_minute served = messages_per_minute self /\
    len (_second_window served) <= len (_second_window self) + 1 /\
    len (_minute_window served) <= len (_minute_window self) + 1.
Proof.
  intros Hfree Hs Hm.
  pose proof (popleft_while_len (now - 1) (_second_window self)) as Hts.
  pose proof (popleft_while_len (now - 60) (_minute_window self)) as Htm.
  eexists. split.
  - apply attempt_below_caps; [exact Hfree | |]; simpl; lia.
  - simpl. rewrite !len_snoc. repeat split; try assumption; lia.
Qed.

Lemma burst_grants (ts : list Q) (self : RateLimiter) :
  _lock self = false ->
  len (_second_window self) + Z.of_nat (List.length ts)
    <= messages_per_second self ->
  len (_minute_window self) + Z.of_nat (List.length ts)
    <= messages_per_minute self ->
  let served := run (map (pair Acquire) ts) self in
  grants (map (pair Acquire) ts) self = ts /\
  _lock served = false /\
  messages_per_second served = messages_per_second self /\
  messages_per_minute served = messages_per_minute self /\
  len (_second_window served)
    <= len (_second_window self) + Z.of_nat (List.length ts) /\
  len (_minute_window served)
    <= len (_minute_window self) + Z.of_nat (List.length ts).
Proof.
  revert self. induction ts as [|t ts IH]; intros self Hfree Hs Hm.
  - simpl. repeat split; try assumption; lia.
  - simpl List.length in *.
    destruct (grant_with_room t self Hfree)
      as [next [Ea [Hl [Els [Elm [Hls Hlm]]]]]]; [lia | lia |].
    simpl. rewrite Ea. simpl after.
    destruct (IH next Hl) as [Eg [Hl' [Els' [Elm' [Hls' Hlm']]]]];
      [lia | lia |].
    rewrite Eg. split; [reflexivity|].
    split; [exact Hl'|].
    split; [congruence|]. split; [congruence|]. lia.
Qed.

(** X3: a burst within the limits is served at once.  On a fresh limiter the
    first [n] calls of [acquire], for [n] up to both limits, each return in
    their first pass without sleeping, whatever the clock reads: each of the
    [n] readings becomes a grant. *)
Theorem burst_within_limits_never_sleeps (per_second per_minute : Z)
    (before : list Q) (t : Q) (rest later : list Q) :
  Z.of_nat (List.length (before ++ t :: rest)) <= per_second ->
  Z.of_nat (List.length (before ++ t :: rest)) <= per_minute ->
  grants (map (pair Acquire) (before ++ t :: rest))
    (new per_second per_minute) = before ++ t :: rest /\
  exists served,
    acquire (t :: later)
      (run (map (pair Acquire) before) (new per_second per_minute))
    = Returned [] served.
Proof.
  intros Hs Hm.
  split.
  - apply (burst_grants (before ++ t :: rest) (new per_second per_minute));
      [reflexivity | |]; simpl; unfold len; simpl; lia.
  - rewrite length_app in Hs, Hm. simpl List.length in Hs, Hm.
    destruct (burst_grants before (new per_second per_minute))
      as [_ [Hl [Els [Elm [Hls Hlm]]]]];
      [reflexivity | simpl; unfold len; simpl; lia
       | simpl; unfold len; simpl; lia |].
    unfold len in Hls at 2. unfold len in Hlm at 2.
    simpl in Hls, Hlm.
    destruct (grant_with_room t _ Hl) as [served [Ea _]];
      [rewrite Els; simpl; lia | rewrite Elm; simpl; lia |].
    exists served. unfold acquire. simpl. now rewrite Ea.
Qed.

Lemma burst_within_limits_never_sleeps_witness :
  exists served,
    acquire [3%Q]
      (run (map (pair Acquire) [1%Q; 2%Q]) (new 5 60))
    = Returned [] served.
Proof.
  refine (proj2 (burst_within_limits_never_sleeps 5 60 [1%Q; 2%Q] 3
                   [4%Q; 5%Q] [] _ _)); simpl; lia.
Defined.

Lemma popleft_while_fresh (horizon t : Q) (n : nat) :
  (horizon < t)%Q -> popleft_while horizon (repeat t n) = repeat t n.
Proof.
  intros Hlt. destruct n as [|n]; [reflexivity|]. simpl.
  destruct (Qle_bool t horizon) eqn:E; [|reflexivity].
  apply Qle_bool_iff in E. lra.
Qed.

Lemma len_repeat (t : Q) (n : nat) : len (repeat t n) = Z.of_nat n.
Proof. unfold len. now rewrite repeat_length. Qed.

Lemma run_same_instant (per_second per_minute : Z) (t : Q) (k j : nat) :
  Z.of_nat (j + k) <= per_second -> Z.of_nat (j + k) <= per_minute ->
  run (repeat (Acquire, t) k)
    (mkRateLimiter per_second per_minute (repeat t j) (repeat t j) false)
  = mkRateLimiter per_second per_minute
      (repeat t (j + k)) (repeat t (j + k)) false.
Proof.
  revert j. induction k as [|k IH]; intros j Hs Hm.
  - now rewrite Nat.add_0_r.
  - simpl repeat. simpl run.
    rewrite attempt_below_caps; try reflexivity;
      try (simpl; rewrite popleft_while_fresh by lra; rewrite len_repeat;
           lia).
    simpl. rewrite !popleft_while_fresh by lra.
    rewrite <- !repeat_cons.
    change (t :: repeat t j) with (repeat t (S j)).
    unfold set_windows.
    cbn [messages_per_second messages_per_minute _lock].
    rewrite (IH (S j)) by lia.
    now replace (S j + k)%nat with (j + S k)%nat by lia.
Qed.

(** X4: a full second window makes the next caller wait out the second.
    After [messages_per_second] grants at one instant [t] on a fresh limiter
    (the minute limit being larger), a pass at a reading [now] before
    [t + 1] grants nothing, leaves the windows alone and sleeps for
    [t + 1 - now] as double arithmetic computes it: a wait that is not
    negative, and the difference itself where the sum and the difference are
    doubles.  The call returns at the first reading that has reached [t + 1];
    at a reading short of it the pass sleeps again. *)
Theorem full_second_window_waits (per_second per_minute : Z) (t now : Q) :
  1 <= per_second -> per_second < per_minute ->
  (now < t + 1)%Q ->
  Binary64.is_double now = true ->
  let full := run (repeat (Acquire, t) (Z.to_nat per_second))
                (new per_second per_minute) in
  let wait := Binary64.round (Binary64.round (t + 1) - now) in
  _second_window full = repeat t (Z.to_nat per_second) /\
  acquire_attempt now full = Sleeping wait full /\
  (0 <= wait)%Q /\
  (Binary64.is_double (t + 1) = true ->
   Binary64.is_double (t + 1 - now) = true ->
   (wait == t + 1 - now)%Q) /\
  (forall later : Q,
     (t + 1 <= later)%Q ->
     exists served, acquire [now; later] full = Returned [wait] served) /\
  (forall later : Q,
     (later < t + 1)%Q ->
     exists wait', acquire_attempt later full = Sleeping wait' full).
Proof.
  intros Hps Hlt Hnow Hdouble full wait.
  assert (Efull : full = mkRateLimiter per_second per_minute
                           (repeat t (Z.to_nat per_second))
                           (repeat t (Z.to_nat per_second)) false).
  { unfold full, new.
    change (@nil Q) with (repeat t 0).
    rewrite run_same_instant; [reflexivity | |]; simpl; lia. }
  assert (Hpass : forall r : Q,
             (r < t + 1)%Q ->
             acquire_attempt r full
             = Sleeping
                 (py_max 0 (Binary64.round (Binary64.round (t + 1) - r)))
                 full).
  { intros r Hr. rewrite Efull.
    rewrite acquire_attempt_unfold by reflexivity. cbv zeta.
    unfold per_second_ok, per_minute_ok. simpl.
    rewrite !popleft_while_fresh by lra. rewrite len_repeat.
    replace (Z.of_nat (Z.to_nat per_second) <? per_second) with false
      by (symmetry; apply Z.ltb_ge; lia).
    replace (Z.of_nat (Z.to_nat per_second) <? per_minute) with true
      by (symmetry; apply Z.ltb_lt; lia).
    cbn [andb]. unfold calculate_wait. cbn [negb].
    destruct (Z.to_nat per_second) as [|n] eqn:En; [lia|].
    unfold _clean_windows, set_windows.
    cbn [messages_per_second messages_per_minute _lock _second_window
         _minute_window].
    rewrite !popleft_while_fresh by lra.
    reflexivity. }
  assert (Hpos : (0 <= wait)%Q)
    by (apply window_wait_nonneg; [exact Hdouble | lra]).
  assert (Esleep : acquire_attempt now full = Sleeping wait full).
  { rewrite (Hpass now Hnow). now rewrite (py_max_zero_round _ Hpos). }
  split; [now rewrite Efull|]. split; [exact Esleep|].
  split; [exact Hpos|].
  split; [|split].
  - intros Hsum Hdiff. now apply window_wait_exact.
  - intros later Hlater.
    destruct (served_when_due now later wait full full)
      as [served [_ Hret]]; try assumption.
    + rewrite Efull. simpl. lia.
    + rewrite Efull. simpl. lia.
    + rewrite Efull. simpl. rewrite len_repeat. lia.
    + rewrite Efull. simpl. rewrite len_repeat. lia.
    + intros h _. rewrite Efull. simpl.
      destruct (Z.to_nat per_second) as [|n]; simpl; [discriminate|].
      intros [= <-]. exact Hlater.
    + intros h Hf. exfalso. unfold per_minute_ok in Hf.
      rewrite Efull in Hf. simpl in Hf.
      rewrite popleft_while_fresh in Hf by lra.
      rewrite len_repeat in Hf. apply Z.ltb_ge in Hf. lia.
    + now exists served.
  - intros later Hlater. eexists. exact (Hpass later Hlater).
Qed.

Lemma full_second_window_waits_witness :
  acquire_attempt 5.25
    (run (repeat (Acquire, 5%Q) (Z.to_nat 2)) (new 2 100))
  = Sleeping (3 # 4)%Q
      (run (repeat (Acquire, 5%Q) (Z.to_nat 2)) (new 2 100)).
Proof.
  assert (Hnow : (5.25 < 5 + 1)%Q) by (unfold Qlt; simpl; lia).
  assert (Hdouble : Binary64.is_double 5.25 = true)
    by (vm_compute; reflexivity).
  pose proof (proj1 (proj2 (full_second_window_waits 2 100 5 5.25
                              ltac:(lia) ltac:(lia) Hnow Hdouble))) as H.
  vm_compute in H. vm_compute. exact H.
Defined.

(** * Contact files *)

Section PhoneNumbers.

Import ContactParser.

Context {U : Unicode}.

Lemma str_eqb_eq (a b : str) : str_eqb a b = true <-> a = b.
Proof.
  unfold str_eqb. destruct (list_eq_dec N.eq_dec a b); split;
    intros; congruence.
Qed.

Lemma lstrip_all_space (s : str) :
  forallb isspace s = true -> lstrip s = [].
Proof.
  induction s as [|c s IH]; simpl; [reflexivity|].
  intros H. apply andb_true_iff in H. destruct H as [Hc Hs].
  rewrite Hc. exact (IH Hs).
Qed.

Lemma lstrip_suffix (s : str) :
  exists spaces, s = spaces ++ lstrip s /\ forallb isspace spaces = true.
Proof.
  induction s as [|c s [sp [Hs Hsp]]]; simpl.
  - now exists [].
  - destruct (isspace c) eqn:E.
    + exists (c :: sp). simpl. rewrite E. split; [congruence | exact Hsp].
    + now exists [].
Qed.

Lemma strip_parts (s : str) :
  exists before after_it,
    s = before ++ strip s ++ after_it /\
    forallb isspace before = true /\ forallb isspace after_it = true.
Proof.
  unfold strip.
  destruct (lstrip_suffix s) as [b [Hb Hbs]].
  destruct (lstrip_suffix (rev (lstrip s))) as [a [Ha Has]].
  exists b, (rev a). split; [|split; [exact Hbs|]].
  - rewrite Hb at 1. f_equal.
    rewrite <- rev_app_distr, <- Ha. now rewrite rev_involutive.
  - rewrite forallb_forall in *. intros x Hx. apply Has.
    now apply in_rev.
Qed.

Lemma strip_nil : strip [] = [].
Proof. reflexivity. Qed.

Lemma strip_all_space (s : str) :
  forallb isspace s = true -> strip s = [].
Proof.
  intros H. unfold strip. now rewrite (lstrip_all_space s H).
Qed.


Lemma all_digits_filter (s : str) :
  forallb isdigit s = true -> filter isdigit s = s.
Proof.
  induction s as [|c s IH]; simpl; [reflexivity|].
  intros H. apply andb_true_iff in H. destruct H as [Hc Hs].
  now rewrite Hc, IH.
Qed.

Lemma remove_char_keeps_digits (c : char) (s : str) :
  isdigit c = false ->
  filter isdigit (remove_char c s) = filter isdigit s.
Proof.
  intros Hc. unfold remove_char. induction s as [|x s IH]; [reflexivity|].
  simpl. destruct (N.eqb x c) eqn:E; simpl.
  - apply N.eqb_eq in E. subst x. now rewrite Hc.
  - now rewrite IH.
Qed.

Lemma remove_char_absent (c : char) (s : str) :
  ~ In c s -> remove_char c s = s.
Proof.
  unfold remove_char. induction s as [|x s IH]; intros Hnot; [reflexivity|].
  simpl. destruct (N.eqb x c) eqn:E.
  - apply N.eqb_eq in E. subst x. elim Hnot. now left.
  - simpl. rewrite IH; [reflexivity|]. intros Hin. apply Hnot. now right.
Qed.

Lemma str_isdigit_true (s : str) :
  str_isdigit s = true <-> s <> [] /\ forallb isdigit s = true.
Proof.
  destruct s as [|c s]; simpl; split.
  - discriminate.
  - now intros [H _].
  - intros H. split; [discriminate | exact H].
  - now intros [_ H].
Qed.

(** The two ways [_normalise_phone] succeeds. *)
Lemma _normalise_phone_return (raw p : str) :
  _normalise_phone raw = Return p ->
  exists digits,
    p = chr "+" :: digits /\ digits <> [] /\
    forallb isdigit digits = true /\
    (cleaned raw = chr "+" :: digits \/ cleaned raw = digits).
Proof.
  unfold _normalise_phone.
  destruct (cleaned raw) as [|c number] eqn:Ec; [discriminate|].
  destruct (startswith (chr "+") (c :: number)) eqn:Es.
  - simpl in Es. apply N.eqb_eq in Es. subst c. simpl tl.
    destruct (str_isdigit number) eqn:Ed; [|discriminate].
    intros [= <-]. apply str_isdigit_true in Ed. destruct Ed as [Hne Hd].
    exists number. repeat split; try assumption. now left.
  - simpl tl.
    destruct (str_isdigit (c :: number)) eqn:Ed; [|discriminate].
    intros [= <-]. apply str_isdigit_true in Ed. destruct Ed as [Hne Hd].
    exists (c :: number). repeat split; try assumption. now right.
Qed.

Lemma _normalise_phone_plus_digits (raw p : str) :
  _normalise_phone raw = Return p -> plus_digits p.
Proof.
  intros H. destruct (_normalise_phone_return raw p H)
    as [ds [Hp [Hne [Hd _]]]].
  now exists ds.
Qed.

Lemma _normalise_phone_throws (raw : str) (e : error) :
  _normalise_phone raw = Throw e -> exists message, e = ValueError message.
Proof.
  unfold _normalise_phone.
  destruct (cleaned raw) as [|c number]; [intros [= <-]; eauto|].
  destruct (str_isdigit _); [discriminate|]. intros [= <-]. eauto.
Qed.

Context {F : UnicodeFacts U}.

Lemma ascii_not_digit (c : char) :
  (c < 128)%N -> ascii_isdigit c = false -> isdigit c = false.
Proof. intros Hc Hd. now rewrite isdigit_ascii. Qed.

Lemma ascii_not_space (c : char) :
  (c < 128)%N -> ascii_isspace c = false -> isspace c = false.
Proof. intros Hc Hd. now rewrite isspace_ascii. Qed.

Lemma spaces_hold_no_digit (s : str) :
  forallb isspace s = true -> filter isdigit s = [].
Proof.
  induction s as [|c s IH]; simpl; [reflexivity|].
  intros H. apply andb_true_iff in H. destruct H as [Hc Hs].
  destruct (isdigit c) eqn:Ed; [|exact (IH Hs)].
  apply digit_not_space in Ed. congruence.
Qed.

Lemma strip_keeps_digits (s : str) :
  filter isdigit (strip s) = filter isdigit s.
Proof.
  destruct (strip_parts s) as [b [a [Hs [Hb Ha]]]].
  rewrite Hs at 2. rewrite !filter_app.
  now rewrite (spaces_hold_no_digit b Hb), (spaces_hold_no_digit a Ha),
    app_nil_r.
Qed.

Lemma cleaned_keeps_digits (raw : str) :
  filter isdigit (cleaned raw) = filter isdigit raw.
Proof.
  unfold cleaned.
  rewrite !remove_char_keeps_digits
    by (apply ascii_not_digit; reflexivity).
  apply strip_keeps_digits.
Qed.

Lemma remove_char_in (x c : char) (s : str) :
  In c s -> c = x \/ In c (remove_char x s).
Proof.
  intros Hin. destruct (N.eqb c x) eqn:E.
  - left. now apply N.eqb_eq.
  - right. unfold remove_char. apply filter_In. split; [exact Hin|].
    now rewrite E.
Qed.

Lemma stripped_in_cleaned (raw : str) (c : char) :
  In c (strip raw) ->
  In c [chr " "; chr "-"; chr "("; chr ")"] \/ In c (cleaned raw).
Proof.
  intros Hin. unfold cleaned.
  destruct (remove_char_in (chr " ") c _ Hin) as [-> | H1];
    [left; simpl; tauto|].
  destruct (remove_char_in (chr "-") c _ H1) as [-> | H2];
    [left; simpl; tauto|].
  destruct (remove_char_in (chr "(") c _ H2) as [-> | H3];
    [left; simpl; tauto|].
  destruct (remove_char_in (chr ")") c _ H3) as [-> | H4];
    [left; simpl; tauto|].
  now right.
Qed.

(** The ways [_normalise_phone] succeeds are the only ones. *)
Lemma _normalise_phone_returns (raw digits : str) :
  digits <> [] -> forallb isdigit digits = true ->
  cleaned raw = chr "+" :: digits \/ cleaned raw = digits ->
  _normalise_phone raw = Return (chr "+" :: digits).
Proof.
  intros Hne Hd Hc.
  assert (Ed : str_isdigit digits = true) by now apply str_isdigit_true.
  unfold _normalise_phone. destruct Hc as [-> | ->].
  - change (startswith (chr "+") (chr "+" :: digits)) with true.
    cbn [tl]. now rewrite Ed.
  - destruct digits as [|d ds]; [now elim Hne|].
    assert (Hs : startswith (chr "+") (d :: ds) = false).
    { cbn [startswith]. apply N.eqb_neq. intros ->.
      cbn [forallb] in Hd. apply andb_true_iff in Hd. destruct Hd as [Hd _].
      rewrite (ascii_not_digit (chr "+") eq_refl eq_refl) in Hd.
      discriminate. }
    rewrite Hs. cbn [tl]. now rewrite Ed.
Qed.

(** X9: [_normalise_phone] returns exactly when, with the surrounding
    whitespace stripped and every space, dash and parenthesis removed, what
    is left is one or more digits, with or without a plus sign in front; it
    then returns the plus sign and these digits.  So the number returned is a
    plus sign followed by exactly the digit characters of the input, in their
    order; the input is whitespace around a text of digits, spaces, dashes,
    parentheses and the plus sign; and these, the digits apart, are all that
    is dropped. *)
Theorem normalised_phone_is_its_digits (raw p : str) :
  (_normalise_phone raw = Return p <->
   exists digits,
     digits <> [] /\ forallb isdigit digits = true /\
     (cleaned raw = chr "+" :: digits \/ cleaned raw = digits) /\
     p = chr "+" :: digits) /\
  (_normalise_phone raw = Return p ->
   p = chr "+" :: filter isdigit raw /\
   filter isdigit raw <> [] /\
   plus_digits p /\
   (exists before after_it,
      raw = before ++ strip raw ++ after_it /\
      forallb isspace before = true /\ forallb isspace after_it = true) /\
   Forall (fun c => isdigit c = true \/
                    In c [chr "+"; chr " "; chr "-"; chr "("; chr ")"])
     (strip raw)).
Proof.
  split.
  - split.
    + intros H.
      destruct (_normalise_phone_return raw p H) as [ds [Hp [Hne [Hd Hc]]]].
      exists ds. repeat split; assumption.
    + intros [ds [Hne [Hd [Hc ->]]]].
      now apply _normalise_phone_returns.
  - intros H.
    destruct (_normalise_phone_return raw p H) as [ds [Hp [Hne [Hd Hc]]]].
    assert (E : filter isdigit raw = ds).
    { rewrite <- cleaned_keeps_digits. destruct Hc as [-> | ->].
      - pose proof (ascii_not_digit (chr "+") eq_refl eq_refl) as Hplus.
        cbn [filter]. rewrite Hplus. now apply all_digits_filter.
      - now apply all_digits_filter. }
    rewrite E. split; [exact Hp|]. split; [exact Hne|].
    split; [now exists ds|]. split; [apply strip_parts|].
    apply Forall_forall. intros c Hin.
    destruct (stripped_in_cleaned raw c Hin) as [Hfmt | Hcl].
    + right. now right.
    + rewrite forallb_forall in Hd.
      destruct Hc as [Hc | Hc]; rewrite Hc in Hcl.
      * destruct Hcl as [<- | Hcl]; [right; now left | left; now apply Hd].
      * left. now apply Hd.
Qed.

Lemma lstrip_no_space (s : str) :
  (forall x, In x s -> isspace x = false) -> lstrip s = s.
Proof.
  destruct s as [|c s]; [reflexivity|]. intros H. simpl.
  now rewrite (H c (or_introl eq_refl)).
Qed.

Lemma strip_no_space (s : str) :
  (forall x, In x s -> isspace x = false) -> strip s = s.
Proof.
  intros H. unfold strip. rewrite (lstrip_no_space s H).
  rewrite lstrip_no_space; [apply rev_involutive|].
  intros x Hx. apply H. now apply in_rev.
Qed.

Lemma plus_digits_chars (p : str) (x : char) :
  plus_digits p -> In x p -> x = chr "+" \/ isdigit x = true.
Proof.
  intros [ds [-> [_ Hd]]] [<- | Hin]; [now left | right].
  rewrite forallb_forall in Hd. now apply Hd.
Qed.

Lemma plus_digits_stripped (p : str) : plus_digits p -> strip p = p.
Proof.
  intros Hp. apply strip_no_space. intros x Hx.
  destruct (plus_digits_chars p x Hp Hx) as [-> | Hd].
  - now apply ascii_not_space.
  - now apply digit_not_space.
Qed.

Lemma plus_digits_cleaned (p : str) : plus_digits p -> cleaned p = p.
Proof.
  intros Hp. unfold cleaned. rewrite (plus_digits_stripped p Hp).
  assert (Habsent : forall c, (c < 128)%N -> ascii_isdigit c = false ->
                              c <> chr "+" -> ~ In c p).
  { intros c Hc Hd Hplus Hin.
    destruct (plus_digits_chars p c Hp Hin) as [E | E]; [contradiction|].
    rewrite (ascii_not_digit c Hc Hd) in E. discriminate. }
  rewrite (remove_char_absent (chr " ") p) by (apply Habsent; easy).
  rewrite (remove_char_absent (chr "-") p) by (apply Habsent; easy).
  rewrite (remove_char_absent (chr "(") p) by (apply Habsent; easy).
  now rewrite (remove_char_absent (chr ")") p) by (apply Habsent; easy).
Qed.

(** X10: the numbers [_normalise_phone] returns are its fixed points.  A
    returned number normalises to itself, and stripping it changes nothing,
    so the [Contact] built from it holds it unchanged. *)
Theorem normalised_phone_is_fixed (raw p : str) :
  _normalise_phone raw = Return p ->
  _normalise_phone p = Return p /\
  forall contact_name : str, phone (new_contact p contact_name) = p.
Proof.
  intros H. pose proof (_normalise_phone_plus_digits raw p H) as Hp.
  split; [|intros n; exact (plus_digits_stripped p Hp)].
  unfold _normalise_phone. rewrite (plus_digits_cleaned p Hp).
  destruct Hp as [ds [-> [Hne Hd]]].
  change (startswith (chr "+") (chr "+" :: ds)) with true.
  cbn [tl].
  assert (Ed : str_isdigit ds = true) by now apply str_isdigit_true.
  now rewrite Ed.
Qed.

End PhoneNumbers.

Section BlankPhoneNumbers.

Import ContactParser.

Context {U : Unicode}.

Lemma formatting_only_cleaned (s : str) :
  Forall (fun c => In c [chr " "; chr "-"; chr "("; chr ")"]) s ->
  remove_char (chr ")")
    (remove_char (chr "(") (remove_char (chr "-") (remove_char (chr " ") s)))
  = [].
Proof.
  induction 1 as [|c s Hc _ IH]; [reflexivity|].
  simpl in Hc.
  destruct Hc as [<- | [<- | [<- | [<- | []]]]]; exact IH.
Qed.

(** X11: a phone cell with nothing in it is refused as empty.  An input that
    is blank (whitespace only, or nothing) or made only of spaces, dashes and
    parentheses raises the [ValueError] "Empty phone number"; and
    [_normalise_phone] raises no other exception than [ValueError]. *)
Theorem blank_phone_is_refused (raw : str) :
  (forallb isspace raw = true \/
   Forall (fun c => In c [chr " "; chr "-"; chr "("; chr ")"]) raw ->
   _normalise_phone raw = Throw (ValueError EmptyPhoneNumber)) /\
  (forall e, _normalise_phone raw = Throw e ->
             exists message, e = ValueError message).
Proof.
  split; [|intros e; apply _normalise_phone_throws].
  intros H. unfold _normalise_phone.
  assert (E : cleaned raw = []); [|now rewrite E].
  unfold cleaned. destruct H as [H | H].
  - now rewrite (strip_all_space raw H).
  - apply formatting_only_cleaned.
    destruct (strip_parts raw) as [b [a [Hs _]]].
    rewrite Hs in H. apply Forall_app in H. destruct H as [_ H].
    apply Forall_app in H. now destruct H.
Qed.

End BlankPhoneNumbers.

(** ASCII text satisfies what the proofs use of the tables. *)
Lemma ascii_text_facts : ContactParser.UnicodeFacts ContactParser.ascii_text.
Proof.
  split; try reflexivity.
  intros c. simpl. unfold ContactParser.ascii_isdigit,
    ContactParser.ascii_isspace.
  intros H. apply andb_true_iff in H. destruct H as [H1 H2].
  apply N.leb_le in H1. apply N.leb_le in H2.
  apply orb_false_iff. split; apply andb_false_iff.
  - right. apply N.leb_gt. lia.
  - right. apply N.leb_gt. lia.
Qed.

Lemma normalised_phone_is_its_digits_witness :
  let U := ContactParser.ascii_text in
  let raw := ContactParser.lit " (415) 555-2671 " in
  ContactParser._normalise_phone raw
  = ContactParser.Return (ContactParser.lit "+4155552671") /\
  ContactParser.lit "+4155552671"
  = ContactParser.chr "+" :: filter ContactParser.isdigit raw.
Proof.
  intros U raw. split; [reflexivity|].
  exact (proj1 (proj2 (@normalised_phone_is_its_digits U ascii_text_facts raw
                         (ContactParser.lit "+4155552671")) eq_refl)).
Defined.

Lemma normalised_phone_is_fixed_witness :
  let U := ContactParser.ascii_text in
  ContactParser._normalise_phone (ContactParser.lit "+14155552671")
  = ContactParser.Return (ContactParser.lit "+14155552671").
Proof.
  intros U.
  exact (proj1 (@normalised_phone_is_fixed U ascii_text_facts
                  (ContactParser.lit "1 415-555-2671")
                  (ContactParser.lit "+14155552671") eq_refl)).
Defined.

Lemma blank_phone_is_refused_witness :
  let U := ContactParser.ascii_text in
  ContactParser._normalise_phone (ContactParser.lit "( - )")
  = ContactParser.Throw
      (ContactParser.ValueError ContactParser.EmptyPhoneNumber).
Proof.
  intros U.
  refine (proj1 (@blank_phone_is_refused U (ContactParser.lit "( - )")) _).
  right. repeat constructor; simpl; tauto.
Defined.

Section CsvFiles.

Import ContactParser.

Context {U : Unicode}.

(** ** Row dictionaries *)

Lemma key_eqb_eq (a b : key) : key_eqb a b = true <-> a = b.
Proof.
  destruct a as [x|], b as [y|]; simpl; try rewrite str_eqb_eq;
    split; intros; congruence.
Qed.

Lemma key_eqb_refl (a : key) : key_eqb a a = true.
Proof. now apply key_eqb_eq. Qed.

Lemma key_eqb_neq (a b : key) : a <> b -> key_eqb a b = false.
Proof.
  intros H. destruct (key_eqb a b) eqn:E; [|reflexivity].
  apply key_eqb_eq in E. contradiction.
Qed.

Lemma dict_get_set_same (k : key) (v : value) (d : dict) :
  dict_get k (dict_set k v d) = Some v.
Proof.
  induction d as [|[k' v'] d IH]; simpl.
  - now rewrite key_eqb_refl.
  - destruct (key_eqb k' k) eqn:E; simpl; rewrite E; [reflexivity | exact IH].
Qed.

Lemma dict_get_set_other (k k' : key) (v : value) (d : dict) :
  k' <> k -> dict_get k (dict_set k' v d) = dict_get k d.
Proof.
  intros Hne. induction d as [|[k0 v0] d IH]; simpl.
  - now rewrite (key_eqb_neq k' k Hne).
  - destruct (key_eqb k0 k') eqn:E; simpl.
    + apply key_eqb_eq in E. subst k0.
      now rewrite (key_eqb_neq k' k Hne).
    + now rewrite IH.
Qed.

(** A field name the row is too short for is [None] in the dictionary. *)
Lemma missing_fields_are_none (k : str) (ks : list str) (d : dict) :
  In k ks \/ dict_get (Some k) d = Some VNone ->
  dict_get (Some k)
    (fold_left (fun d k => dict_set (Some k) VNone d) ks d) = Some VNone.
Proof.
  revert d. induction ks as [|a ks IH]; intros d H; simpl.
  - now destruct H.
  - apply IH. destruct (list_eq_dec N.eq_dec a k) as [-> | Hne].
    + right. apply dict_get_set_same.
    + destruct H as [[-> | Hin] | Hd]; [contradiction | now left | right].
      rewrite dict_get_set_other; [exact Hd | congruence].
Qed.

(** A field name with a cell is a string in the dictionary. *)
Lemma present_fields_are_strings (k : str) (kvs : list (str * str))
    (d : dict) :
  In k (map fst kvs) \/ (exists s, dict_get (Some k) d = Some (VStr s)) ->
  exists s,
    dict_get (Some k)
      (fold_left (fun d kv => dict_set (Some (fst kv)) (VStr (snd kv)) d)
         kvs d) = Some (VStr s).
Proof.
  revert d. induction kvs as [|[a v] kvs IH]; intros d H; simpl.
  - now destruct H.
  - apply IH. simpl in H.
    destruct (list_eq_dec N.eq_dec a k) as [-> | Hne].
    + right. exists v. apply dict_get_set_same.
    + destruct H as [[-> | Hin] | [s Hd]]; [contradiction | now left | right].
      exists s. rewrite dict_get_set_other; [exact Hd | congruence].
Qed.

Lemma In_skipn_nth (n i : nat) (l : list str) (d : str) :
  (n <= i < List.length l)%nat -> In (nth i l d) (skipn n l).
Proof.
  revert i l. induction n as [|n IH]; intros i l [Hn Hi].
  - simpl. now apply nth_In.
  - destruct l as [|a l]; [simpl in Hi; lia|].
    destruct i as [|i]; [lia|]. simpl. apply IH. simpl in Hi. lia.
Qed.

Lemma short_row_has_none (fieldnames row : list str) (i : nat) :
  (List.length row <= i < List.length fieldnames)%nat ->
  get_strip (row_dict fieldnames row) (nth i fieldnames [])
  = Throw AttributeError.
Proof.
  intros [Hrow Hi]. unfold get_strip, row_dict.
  replace (List.length fieldnames <? List.length row)%nat with false
    by (symmetry; apply Nat.ltb_ge; lia).
  replace (List.length row <? List.length fieldnames)%nat with true
    by (symmetry; apply Nat.ltb_lt; lia).
  rewrite missing_fields_are_none; [reflexivity|].
  left. apply In_skipn_nth. lia.
Qed.

Lemma full_row_has_string (fieldnames row : list str) (k : str) :
  (List.length fieldnames <= List.length row)%nat -> In k fieldnames ->
  exists s, get_strip (row_dict fieldnames row) k = Return s.
Proof.
  intros Hlen Hin. unfold get_strip, row_dict.
  replace (List.length row <? List.length fieldnames)%nat with false
    by (symmetry; apply Nat.ltb_ge; lia).
  destruct (present_fields_are_strings k (combine fieldnames row) [])
    as [s Hs].
  { left.
    assert (E : map fst (combine fieldnames row) = fieldnames).
    { clear Hin. revert row Hlen.
      induction fieldnames as [|a l IH]; intros [|r row] Hlen;
        simpl in *; try reflexivity; try lia.
      f_equal. apply IH. lia. }
    now rewrite E. }
  destruct (List.length fieldnames <? List.length row)%nat.
  - rewrite dict_get_set_other by discriminate. rewrite Hs. eauto.
  - rewrite Hs. eauto.
Qed.

(** ** List positions *)

Lemma index_found (x : str) (l : list str) (i : nat) :
  index x l = Some i ->
  (i < List.length l)%nat /\ existsb (str_eqb x) l = true.
Proof.
  revert i. induction l as [|y l IH]; intros i; simpl; [discriminate|].
  destruct (str_eqb y x) eqn:E.
  - intros [= <-]. apply str_eqb_eq in E. subst y.
    split; [lia|]. apply orb_true_iff. left. now apply str_eqb_eq.
  - destruct (index x l) as [j|]; [|discriminate].
    intros [= <-]. destruct (IH j eq_refl) as [Hj He].
    split; [lia|]. apply orb_true_iff. now right.
Qed.

Lemma nth_map_In (i : nat) (l : list str) (f : str -> str) :
  (i < List.length (map f l))%nat -> In (nth i l []) l.
Proof. rewrite length_map. apply nth_In. Qed.

(** ** Rows without a header *)

Lemma plain_rows_flat_map (rows : list (list str)) (contacts : list Contact) :
  plain_rows rows contacts = contacts ++ flat_map plain_contact rows.
Proof.
  revert contacts. induction rows as [|row rows IH]; intros contacts.
  - simpl. now rewrite app_nil_r.
  - destruct row as [|first others]; simpl; [apply IH|].
    destruct (_normalise_phone first) as [p|e].
    + rewrite IH, <- app_assoc. simpl.
      now destruct others.
    + apply IH.
Qed.

(** X12: a CSV file without a header row.  The contacts are, in file order,
    one for each non-blank row whose first cell is a valid phone number,
    with the stripped second cell as name (empty when the row has one cell);
    rows with an invalid first cell are skipped, and when no row is left the
    parser raises [ContactParseError]. *)
Theorem csv_without_header (rows : list (list str)) :
  existsb (str_eqb (lit "phone"))
    (map (fun c => strip (lower c)) (hd [] rows)) = false ->
  parse_contacts_csv rows =
    match flat_map plain_contact rows with
    | [] => Throw (ContactParseError "No valid contacts found in CSV file")
    | contacts => Return contacts
    end.
Proof.
  intros Hplain. unfold parse_contacts_csv. rewrite Hplain.
  rewrite plain_rows_flat_map.
  destruct rows as [|row rows]; cbn [hd tl app]; [reflexivity|].
  now destruct (flat_map plain_contact (row :: rows)).
Qed.

(** ** Rows under a header *)

Lemma header_rows_complete (fieldnames : list str) (phone_col : str)
    (name_col : option str) (rows : list (list str))
    (contacts : list Contact) :
  In phone_col fieldnames ->
  (forall col, name_col = Some col -> In col fieldnames) ->
  Forall (fun row => row = [] \/
                     (List.length fieldnames <= List.length row)%nat) rows ->
  exists parsed,
    header_rows fieldnames phone_col name_col rows contacts = Return parsed.
Proof.
  intros Hphone Hname Hrows. revert contacts.
  induction Hrows as [|row rows Hrow _ IH]; intros contacts; [simpl; eauto|].
  destruct row as [|c cells]; [apply IH|].
  destruct Hrow as [Hnil | Hlen]; [discriminate|].
  cbn [header_rows].
  destruct (full_row_has_string fieldnames (c :: cells) phone_col Hlen Hphone)
    as [raw_phone ->].
  destruct (_normalise_phone raw_phone) as [p|e] eqn:Ep.
  - destruct name_col as [[|n col]|]; try apply IH.
    destruct (full_row_has_string fieldnames (c :: cells) (n :: col) Hlen
                (Hname _ eq_refl)) as [nm ->].
    apply IH.
  - destruct (_normalise_phone_throws raw_phone e Ep) as [m ->]. apply IH.
Qed.

(** X13: a CSV file with a header row whose data rows are complete.  When
    every non-blank data row has at least as many cells as the header, the
    parser raises no [AttributeError] (nor anything else unexpected): it
    returns a non-empty list of contacts or raises [ContactParseError]. *)
Theorem csv_complete_rows_parse (header : list str)
    (data : list (list str)) (i : nat) :
  index (lit "phone") (map (fun c => strip (lower c)) header) = Some i ->
  Forall (fun row => row = [] \/
                     (List.length header <= List.length row)%nat) data ->
  (exists contacts,
     parse_contacts_csv (header :: data) = Return contacts /\
     contacts <> []) \/
  parse_contacts_csv (header :: data)
  = Throw (ContactParseError "No valid contacts found in CSV file").
Proof.
  intros Hidx Hdata. unfold parse_contacts_csv. cbn [hd tl].
  destruct (index_found _ _ _ Hidx) as [Hi Hex]. rewrite Hex, Hidx.
  destruct (header_rows_complete header (nth i header [])
              (match index (lit "name")
                       (map (fun c => strip (lower c)) header) with
               | Some j => Some (nth j header [])
               | None => None
               end) data []) as [parsed ->].
  - exact (nth_map_In i header _ Hi).
  - intros col.
    destruct (index (lit "name") _) as [j|] eqn:Ej; [|discriminate].
    intros [= <-]. destruct (index_found _ _ _ Ej) as [Hj _].
    exact (nth_map_In j header _ Hj).
  - exact Hdata.
  - destruct parsed as [|contact parsed]; [now right | left].
    eexists. split; [reflexivity | discriminate].
Qed.

(** X14: a CSV file with a header row and a short data row.  When the first
    data row is not blank but ends before the phone column, the parser does
    not skip it: [row.get(phone_col, "")] is [None] and the call of [strip]
    on it raises [AttributeError], whatever rows follow. *)
Theorem csv_short_row_raises (header row : list str)
    (rest : list (list str)) (i : nat) :
  index (lit "phone") (map (fun c => strip (lower c)) header) = Some i ->
  row <> [] -> (List.length row <= i)%nat ->
  parse_contacts_csv (header :: row :: rest) = Throw AttributeError.
Proof.
  intros Hidx Hrow Hshort. unfold parse_contacts_csv. cbn [hd tl].
  destruct (index_found _ _ _ Hidx) as [Hi Hex]. rewrite Hex, Hidx.
  rewrite length_map in Hi.
  destruct row as [|c cells]; [contradiction|].
  cbn [header_rows].
  now rewrite (short_row_has_none header (c :: cells) i) by lia.
Qed.

Context {F : UnicodeFacts U}.

Lemma new_contact_phone (raw p contact_name : str) :
  _normalise_phone raw = Return p ->
  plus_digits (phone (new_contact p contact_name)).
Proof.
  intros H. pose proof (_normalise_phone_plus_digits raw p H) as Hp.
  simpl. now rewrite (plus_digits_stripped p Hp).
Qed.

Lemma plain_contact_phones (row : list str) :
  Forall (fun c => plus_digits (phone c)) (plain_contact row).
Proof.
  destruct row as [|first others]; simpl; [constructor|].
  destruct (_normalise_phone first) as [p|e] eqn:Ep; constructor;
    [|constructor].
  exact (new_contact_phone first p _ Ep).
Qed.

Lemma header_rows_phones (fieldnames : list str) (phone_col : str)
    (name_col : option str) (rows : list (list str))
    (contacts parsed : list Contact) :
  Forall (fun c => plus_digits (phone c)) contacts ->
  header_rows fieldnames phone_col name_col rows contacts = Return parsed ->
  Forall (fun c => plus_digits (phone c)) parsed.
Proof.
  revert contacts. induction rows as [|row rows IH]; intros contacts Hc.
  - simpl. now intros [= <-].
  - destruct row as [|c cells]; [apply IH; exact Hc|].
    cbn [header_rows].
    destruct (get_strip _ phone_col) as [raw_phone|e]; [|discriminate].
    destruct (_normalise_phone raw_phone) as [p|[m|m| |]] eqn:Ep;
      try discriminate; [|apply IH; exact Hc].
    destruct (match name_col with
              | Some (n :: col) => get_strip _ (n :: col)
              | _ => Return []
              end) as [nm|e]; [|discriminate].
    apply IH. apply Forall_app. split; [exact Hc|].
    constructor; [|constructor].
    exact (new_contact_phone raw_phone p nm Ep).
Qed.

(** X15: what [parse_contacts_csv] hands on.  When it returns, the list is
    not empty and the phone of every contact is a plus sign followed by one
    or more digits, with or without a header row. *)
Theorem csv_contacts_are_normalised (rows : list (list str))
    (contacts : list Contact) :
  parse_contacts_csv rows = Return contacts ->
  contacts <> [] /\ Forall (fun c => plus_digits (phone c)) contacts.
Proof.
  unfold parse_contacts_csv.
  destruct (existsb _ _).
  - destruct (index (lit "phone") _) as [i|]; [|discriminate].
    destruct (header_rows _ _ _ _ _) as [[|c parsed]|e] eqn:Eh;
      try discriminate.
    intros [= <-]. split; [discriminate|].
    exact (header_rows_phones _ _ _ _ [] _ (Forall_nil _) Eh).
  - rewrite plain_rows_flat_map. cbn [app].
    assert (Hall : Forall (fun c => plus_digits (phone c))
                     (flat_map plain_contact (hd [] rows :: tl rows))).
    { apply Forall_flat_map. apply Forall_forall. intros row _.
      apply plain_contact_phones. }
    destruct (flat_map plain_contact (hd [] rows :: tl rows))
      as [|c parsed]; [discriminate|].
    intros [= <-]. split; [discriminate | exact Hall].
Qed.

End CsvFiles.

(** test_csv_no_header_first_col_is_phone *)
Lemma csv_without_header_witness :
  let U := ContactParser.ascii_text in
  ContactParser.parse_contacts_csv
    [[ContactParser.lit "+14155552671"; ContactParser.lit "Alice"];
     [ContactParser.lit "not-a-phone"; ContactParser.lit "Eve"];
     [ContactParser.lit "442071234567"]]
  = ContactParser.Return
      [ContactParser.mkContact (ContactParser.lit "+14155552671")
         (ContactParser.lit "Alice");
       ContactParser.mkContact (ContactParser.lit "+442071234567") []].
Proof.
  intros U.
  exact (eq_trans
           (@csv_without_header U
              [[ContactParser.lit "+14155552671"; ContactParser.lit "Alice"];
               [ContactParser.lit "not-a-phone"; ContactParser.lit "Eve"];
               [ContactParser.lit "442071234567"]] eq_refl)
           eq_refl).
Defined.

(** test_csv_skips_invalid_phones *)
Lemma csv_complete_rows_parse_witness :
  let U := ContactParser.ascii_text in
  let rows := [[ContactParser.lit "Phone"; ContactParser.lit " Name "];
               [ContactParser.lit "not-a-phone"; ContactParser.lit "Alice"];
               [];
               [ContactParser.lit "+14155552671"; ContactParser.lit "Bob"]] in
  ContactParser.parse_contacts_csv rows
  = ContactParser.Return
      [ContactParser.mkContact (ContactParser.lit "+14155552671")
         (ContactParser.lit "Bob")] /\
  ((exists contacts,
      ContactParser.parse_contacts_csv rows = ContactParser.Return contacts /\
      contacts <> []) \/
   ContactParser.parse_contacts_csv rows
   = ContactParser.Throw
       (ContactParser.ContactParseError
          "No valid contacts found in CSV file")).
Proof.
  intros U rows. split; [reflexivity|].
  refine (@csv_complete_rows_parse U
            [ContactParser.lit "Phone"; ContactParser.lit " Name "]
            (tl rows) 0 eq_refl _).
  unfold rows. cbn [tl].
  constructor; [right; simpl; lia|].
  constructor; [left; reflexivity|].
  constructor; [right; simpl; lia|].
  constructor.
Defined.

Lemma csv_short_row_raises_witness :
  let U := ContactParser.ascii_text in
  ContactParser.parse_contacts_csv
    [[ContactParser.lit "name"; ContactParser.lit "phone"];
     [ContactParser.lit "Alice"];
     [ContactParser.lit "Bob"; ContactParser.lit "+14155552671"]]
  = ContactParser.Throw ContactParser.AttributeError.
Proof.
  intros U.
  refine (@csv_short_row_raises U
            [ContactParser.lit "name"; ContactParser.lit "phone"]
            [ContactParser.lit "Alice"]
            [[ContactParser.lit "Bob"; ContactParser.lit "+14155552671"]]
            1 eq_refl _ _).
  - discriminate.
  - simpl. lia.
Defined.

(** test_csv_with_header *)
Lemma csv_contacts_are_normalised_witness :
  let U := ContactParser.ascii_text in
  let rows := [[ContactParser.lit "phone"; ContactParser.lit "name"];
               [ContactParser.lit "+14155552671"; ContactParser.lit "Alice"];
               [ContactParser.lit "+442071234567"; ContactParser.lit "Bob"]]
  in
  let contacts :=
    [ContactParser.mkContact (ContactParser.lit "+14155552671")
       (ContactParser.lit "Alice");
     ContactParser.mkContact (ContactParser.lit "+442071234567")
       (ContactParser.lit "Bob")] in
  ContactParser.parse_contacts_csv rows = ContactParser.Return contacts /\
  Forall (fun c => ContactParser.plus_digits (ContactParser.phone c))
    contacts.
Proof.
  intros U rows contacts. split; [reflexivity|].
  exact (proj2 (@csv_contacts_are_normalised U ascii_text_facts rows contacts
                  eq_refl)).
Defined.

(** * The bot's limiter *)

(** X16: a limit of zero or below in the environment switches sending off.
    When the builtin [int] reads the texts of
    [RATE_LIMIT_MESSAGES_PER_SECOND] and [RATE_LIMIT_MESSAGES_PER_MINUTE]
    (the default text where a variable is not set) as integers of which one
    is not positive, [RateLimiter()] still builds the limiter of the process,
    with these limits, empty windows and a free lock; whatever runs on it
    leaves it as it is, and every call of [acquire] fails with [IndexError]
    in its first pass. *)
Theorem environment_limit_switches_off (int : string -> option Z)
    (env : environ) (s m : Z) (tr : list (op * Q)) (now : Q)
    (later : list Q) :
  int (getenv env "RATE_LIMIT_MESSAGES_PER_SECOND" "10") = Some s ->
  int (getenv env "RATE_LIMIT_MESSAGES_PER_MINUTE" "100") = Some m ->
  s <= 0 \/ m <= 0 ->
  let limiter := mkRateLimiter s m [] [] false in
  rate_limiter int env = Ok limiter /\
  run tr limiter = limiter /\
  grants tr limiter = [] /\
  acquire (now :: later) (run tr limiter) = Failed IndexError limiter.
Proof.
  intros Hs Hm Hle limiter.
  destruct (run_without_limit s m tr Hle) as [Hrun Hgrants].
  change (new s m) with limiter in Hrun, Hgrants.
  split; [|split; [exact Hrun | split; [exact Hgrants|]]].
  - unfold rate_limiter. apply init_ok; simpl; unfold call_int.
    + now rewrite Hs.
    + now rewrite Hm.
  - rewrite Hrun. unfold acquire. simpl.
    change limiter with (new s m).
    now rewrite (acquire_faults_without_limit s m now Hle).
Qed.

Lemma environment_limit_switches_off_witness :
  let env : environ := fun key =>
    if String.eqb key "RATE_LIMIT_MESSAGES_PER_SECOND" then Some "0"%string
    else None in
  rate_limiter PyInt.int env = Ok (mkRateLimiter 0 100 [] [] false) /\
  acquire [5%Q; 6%Q] (run [(Acquire, 1%Q)] (mkRateLimiter 0 100 [] [] false))
  = Failed IndexError (mkRateLimiter 0 100 [] [] false).
Proof.
  intros env.
  assert (Hle : 0 <= 0 \/ 100 <= 0) by (left; lia).
  destruct (environment_limit_switches_off PyInt.int env 0 100
              [(Acquire, 1%Q)] 5 [6%Q] eq_refl eq_refl Hle)
    as [Hbuilt [_ [_ Hfails]]].
  split; [exact Hbuilt | exact Hfails].
Defined.

Lemma tracks_until (per_second per_minute : Z) (tr : list (op * Q))
    (bound : Q) :
  1 <= per_second -> 1 <= per_minute ->
  ascending (map snd tr) = true ->
  Forall (fun u => (u <= bound)%Q) (map snd tr) ->
  exists t,
    (t <= bound)%Q /\
    tracks t (grants tr (new per_second per_minute))
      (run tr (new per_second per_minute)).
Proof.
  intros Hps Hpm Hasc Hall.
  set (first := hd bound (map snd tr)).
  assert (Hstart : tracks first [] (new per_second per_minute)).
  { unfold tracks, new, len. simpl. repeat split; try constructor; lia. }
  assert (Hfrom : ascending (first :: map snd tr) = true).
  { unfold first. destruct (map snd tr) as [|a l] eqn:E; [reflexivity|].
    change (Qle_bool a a && ascending (a :: l) = true).
    rewrite Hasc, andb_true_r. apply Qle_bool_iff. lra. }
  exists (last (map snd tr) first).
  split; [|exact (run_tracks _ _ _ _ Hstart Hfrom)].
  apply last_bounded; [|exact Hall].
  unfold first. destruct (map snd tr) as [|a l]; simpl; [lra|].
  now inversion Hall.
Qed.

(** X17: what [/status] shows is consistent.  On a limiter with positive
    limits, after any execution with a monotonic clock, the second count
    shown is between 0 and the per-second limit shown, the minute count
    between 0 and the per-minute limit, the limits are the configured ones,
    and, when the two clock readings are at most 59 seconds apart, the second
    count is at most the minute count. *)
Theorem status_is_consistent (per_second per_minute : Z)
    (tr : list (op * Q)) (now1 now2 : Q) :
  1 <= per_second -> 1 <= per_minute ->
  ascending (map snd tr) = true ->
  Forall (fun u => (u <= now1)%Q) (map snd tr) ->
  (now1 <= now2)%Q ->
  let shown :=
    fst (status_handler now1 now2 (run tr (new per_second per_minute))) in
  let second_count := fst (fst (fst shown)) in
  let second_limit := snd (fst (fst shown)) in
  let minute_count := snd (fst shown) in
  let minute_limit := snd shown in
  0 <= second_count <= second_limit /\ second_limit = per_second /\
  0 <= minute_count <= minute_limit /\ minute_limit = per_minute /\
  ((now2 <= now1 + 59)%Q -> second_count <= minute_count).
Proof.
  intros Hps Hpm Hasc Hall Hle.
  destruct (tracks_until per_second per_minute tr now1 Hps Hpm Hasc Hall)
    as [t [Ht Htr]].
  destruct (run_limits tr (new per_second per_minute)) as [Els Elm].
  simpl in Els, Elm.
  set (self := run tr (new per_second per_minute)) in *.
  pose proof (_clean_windows_tracks t now1 _ self Htr Ht) as H1.
  pose proof (_clean_windows_tracks now1 now2 _ _ H1 Hle) as H2.
  destruct H1 as [_ [_ [Es1 [_ [Hl1 _]]]]].
  destruct H2 as [_ [_ [_ [Em2 [_ [Hl2 _]]]]]].
  unfold status_handler, current_second_count, current_minute_count.
  cbn [fst snd].
  change (messages_per_second (_clean_windows now1 self))
    with (messages_per_second self) in *.
  change (messages_per_minute
            (_clean_windows now2 (_clean_windows now1 self)))
    with (messages_per_minute self) in *.
  rewrite Els, Elm in *.
  split; [split; [unfold len; lia | exact Hl1]|].
  split; [reflexivity|].
  split; [split; [unfold len; lia | exact Hl2]|].
  split; [reflexivity|].
  intros Hnear. rewrite Es1, Em2.
  apply filter_newer_len. lra.
Qed.

Lemma status_is_consistent_witness :
  let tr := [(Acquire, 0%Q); (Acquire, 0.5%Q); (Acquire, 0.75%Q)] in
  fst (status_handler 1.25 1.5 (run tr (new 2 100))) = (1, 2, 2, 100) /\
  1 <= 2.
Proof.
  intros tr. split; [reflexivity|].
  refine (proj2 (proj1 (status_is_consistent 2 100 tr 1.25 1.5 _ _ eq_refl
                          _ _))); try lia.
  - repeat constructor; unfold Qle; simpl; lia.
  - unfold Qle. simpl. lia.
Defined.

(** * Excel sheets *)

Section ExcelSheets.

Import ContactParser.

Context {U : Unicode}.

Lemma sheet_rows_complete (phone_idx : nat) (name_idx : option nat)
    (rows : list (list cell)) (contacts : list Contact) :
  Forall (fun row => row = [] \/ (phone_idx < List.length row)%nat) rows ->
  exists parsed, sheet_rows phone_idx name_idx rows contacts = Return parsed.
Proof.
  intros Hrows. revert contacts.
  induction Hrows as [|row rows Hrow _ IH]; intros contacts; [simpl; eauto|].
  destruct row as [|c cells]; [apply IH|].
  destruct Hrow as [Hnil | Hlen]; [discriminate|].
  cbn [sheet_rows].
  destruct (nth_error (c :: cells) phone_idx) as [[raw_phone|]|] eqn:En.
  - destruct (_normalise_phone raw_phone) as [p|e] eqn:Ep; [apply IH|].
    destruct (_normalise_phone_throws raw_phone e Ep) as [m ->]. apply IH.
  - apply IH.
  - apply nth_error_None in En. lia.
Qed.

Lemma sheet_rows_names (rows : list (list cell))
    (contacts parsed : list Contact) :
  Forall (fun c => name c = []) contacts ->
  sheet_rows 0 None rows contacts = Return parsed ->
  Forall (fun c => name c = []) parsed.
Proof.
  revert contacts. induction rows as [|row rows IH]; intros contacts Hc.
  - simpl. now intros [= <-].
  - destruct row as [|c cells]; [apply IH; exact Hc|].
    cbn [sheet_rows nth_error].
    destruct c as [raw_phone|]; [|apply IH; exact Hc].
    destruct (_normalise_phone raw_phone) as [p|[m|m| |]];
      try discriminate; [|apply IH; exact Hc].
    apply IH. apply Forall_app. split; [exact Hc|].
    constructor; [reflexivity | constructor].
Qed.

(** X18: a sheet whose rows all have the width of its first row is parsed
    without an [IndexError]: [parse_contacts_excel] returns a non-empty list
    of contacts or raises [ContactParseError] for want of a valid contact. *)
Theorem excel_rectangular_sheet_parses (top : list cell)
    (rest : list (list cell)) :
  Forall (fun row => List.length row = List.length top) rest ->
  (exists contacts,
     parse_contacts_excel (top :: rest) = Return contacts /\
     contacts <> []) \/
  parse_contacts_excel (top :: rest)
  = Throw (ContactParseError "No valid contacts found in Excel file").
Proof.
  intros Hrect. unfold parse_contacts_excel.
  set (first_row := map (fun c : cell => match c with
                                         | Some text => strip (lower text)
                                         | None => []
                                         end) top).
  assert (Hwide : forall i, (i < List.length top)%nat ->
            Forall (fun row => row = [] \/ (i < List.length row)%nat)
              (top :: rest)).
  { intros i Hi. constructor; [now right|].
    eapply Forall_impl; [|exact Hrect]. simpl. intros row ->. now right. }
  assert (Hdone : forall parsed : list Contact,
            (exists contacts,
               match parsed with
               | [] => Throw (ContactParseError
                                "No valid contacts found in Excel file")
               | _ :: _ => Return parsed
               end = Return contacts /\ contacts <> []) \/
            match parsed with
            | [] => Throw (ContactParseError
                             "No valid contacts found in Excel file")
            | _ :: _ => Return parsed
            end = Throw (ContactParseError
                           "No valid contacts found in Excel file")).
  { intros [|c parsed]; [now right | left].
    eexists. split; [reflexivity | discriminate]. }
  destruct (existsb (str_eqb (lit "phone")) first_row) eqn:Eh.
  - destruct (index (lit "phone") first_row) as [i|] eqn:Ei.
    + destruct (index_found _ _ _ Ei) as [Hi _].
      unfold first_row in Hi. rewrite length_map in Hi.
      specialize (Hwide i Hi). inversion Hwide as [|? ? _ Hrest]; subst.
      destruct (sheet_rows_complete i
                  (if existsb (str_eqb (lit "name")) first_row
                   then index (lit "name") first_row else None)
                  rest [] Hrest) as [parsed Hp].
      cbn [skipn]. rewrite Hp. apply Hdone.
    + exfalso. clear - Eh Ei. induction first_row as [|y l IH].
      * discriminate.
      * simpl in Eh, Ei. destruct (str_eqb y (lit "phone")) eqn:E;
          [discriminate|].
        assert (E' : str_eqb (lit "phone") y = false).
        { destruct (str_eqb (lit "phone") y) eqn:E2; [|reflexivity].
          apply str_eqb_eq in E2. subst y.
          assert (str_eqb (lit "phone") (lit "phone") = true)
            by now apply str_eqb_eq.
          congruence. }
        rewrite E' in Eh. simpl in Eh.
        destruct (index (lit "phone") l); [discriminate|]. now apply IH.
  - cbn [skipn].
    destruct (sheet_rows_complete 0 None (top :: rest) []) as [parsed Hp].
    { destruct top as [|c top].
      - constructor; [now left|].
        eapply Forall_impl; [|exact Hrect]. simpl. intros row Hlen. left.
        now destruct row.
      - apply Hwide. simpl. lia. }
    rewrite Hp. apply Hdone.
Qed.

(** X19: a sheet without a header row gives contacts without names.
    [parse_contacts_excel] reads the name only from a column headed "name";
    without a header every contact it returns has an empty name, whatever
    the cells after the first hold (the CSV parser takes the second cell). *)
Theorem excel_without_header_has_no_names (top : list cell)
    (rest : list (list cell)) (contacts : list Contact) :
  existsb (str_eqb (lit "phone"))
    (map (fun c : cell => match c with
                          | Some text => strip (lower text)
                          | None => []
                          end) top) = false ->
  parse_contacts_excel (top :: rest) = Return contacts ->
  Forall (fun c => name c = []) contacts.
Proof.
  intros Hplain. unfold parse_contacts_excel. rewrite Hplain. cbn [skipn].
  destruct (sheet_rows 0 None (top :: rest) []) as [[|c parsed]|e] eqn:Es;
    try discriminate.
  intros [= <-].
  exact (sheet_rows_names _ [] _ (Forall_nil _) Es).
Qed.

Context {F : UnicodeFacts U}.

Lemma sheet_rows_phones (phone_idx : nat) (name_idx : option nat)
    (rows : list (list cell)) (contacts parsed : list Contact) :
  Forall (fun c => plus_digits (phone c)) contacts ->
  sheet_rows phone_idx name_idx rows contacts = Return parsed ->
  Forall (fun c => plus_digits (phone c)) parsed.
Proof.
  revert contacts. induction rows as [|row rows IH]; intros contacts Hc.
  - simpl. now intros [= <-].
  - destruct row as [|c cells]; [apply IH; exact Hc|].
    cbn [sheet_rows].
    destruct (nth_error (c :: cells) phone_idx) as [[raw_phone|]|];
      [|apply IH; exact Hc | discriminate].
    destruct (_normalise_phone raw_phone) as [p|[m|m| |]] eqn:Ep;
      try discriminate; [|apply IH; exact Hc].
    apply IH. apply Forall_app. split; [exact Hc|].
    constructor; [|constructor].
    exact (new_contact_phone raw_phone p _ Ep).
Qed.

(** X20: what [parse_contacts_excel] hands on.  When it returns, the list is
    not empty and the phone of every contact is a plus sign followed by one
    or more digits. *)
Theorem excel_contacts_are_normalised (rows : list (list cell))
    (contacts : list Contact) :
  parse_contacts_excel rows = Return contacts ->
  contacts <> [] /\ Forall (fun c => plus_digits (phone c)) contacts.
Proof.
  unfold parse_contacts_excel. destruct rows as [|top rest]; [discriminate|].
  destruct (existsb (str_eqb (lit "phone")) _).
  - destruct (index (lit "phone") _) as [i|]; [|discriminate].
    destruct (sheet_rows _ _ _ _) as [[|c parsed]|e] eqn:Es;
      try discriminate.
    intros [= <-]. split; [discriminate|].
    exact (sheet_rows_phones _ _ _ [] _ (Forall_nil _) Es).
  - destruct (sheet_rows _ _ _ _) as [[|c parsed]|e] eqn:Es;
      try discriminate.
    intros [= <-]. split; [discriminate|].
    exact (sheet_rows_phones _ _ _ [] _ (Forall_nil _) Es).
Qed.

End ExcelSheets.

(** test_excel_with_header *)
Lemma excel_rectangular_sheet_parses_witness :
  let U := ContactParser.ascii_text in
  let top := [Some (ContactParser.lit "phone");
              Some (ContactParser.lit "name")] in
  let rest := [[Some (ContactParser.lit "+14155552671");
                Some (ContactParser.lit "Alice")];
               [None; Some (ContactParser.lit "Carol")];
               [Some (ContactParser.lit "+442071234567"); None]] in
  ContactParser.parse_contacts_excel (top :: rest)
  = ContactParser.Return
      [ContactParser.mkContact (ContactParser.lit "+14155552671")
         (ContactParser.lit "Alice");
       ContactParser.mkContact (ContactParser.lit "+442071234567") []] /\
  ((exists contacts,
      ContactParser.parse_contacts_excel (top :: rest)
      = ContactParser.Return contacts /\ contacts <> []) \/
   ContactParser.parse_contacts_excel (top :: rest)
   = ContactParser.Throw
       (ContactParser.ContactParseError
          "No valid contacts found in Excel file")).
Proof.
  intros U top rest. split; [reflexivity|].
  refine (@excel_rectangular_sheet_parses U top rest _).
  repeat constructor.
Defined.

(** test_excel_no_header *)
Lemma excel_without_header_has_no_names_witness :
  let U := ContactParser.ascii_text in
  let top := [Some (ContactParser.lit "+14155552671");
              Some (ContactParser.lit "Alice")] in
  ContactParser.parse_contacts_excel [top]
  = ContactParser.Return
      [ContactParser.mkContact (ContactParser.lit "+14155552671") []] /\
  Forall (fun c => ContactParser.name c = [])
    [ContactParser.mkContact (ContactParser.lit "+14155552671") []].
Proof.
  intros U top. split; [reflexivity|].
  exact (@excel_without_header_has_no_names U top [] _ eq_refl eq_refl).
Defined.

(** test_excel_skips_invalid *)
Lemma excel_contacts_are_normalised_witness :
  let U := ContactParser.ascii_text in
  let rows := [[Some (ContactParser.lit "phone")];
               [Some (ContactParser.lit "not-a-phone")];
               [Some (ContactParser.lit "14155552671")]] in
  ContactParser.parse_contacts_excel rows
  = ContactParser.Return
      [ContactParser.mkContact (ContactParser.lit "+14155552671") []] /\
  Forall (fun c => ContactParser.plus_digits (ContactParser.phone c))
    [ContactParser.mkContact (ContactParser.lit "+14155552671") []].
Proof.
  intros U rows. split; [reflexivity|].
  exact (proj2 (@excel_contacts_are_normalised U ascii_text_facts rows _
                  eq_refl)).
Defined.
